(** * MedFill: the document field pipeline of [MedFill.py]

    A shallow embedding of the pure core of the form filler: the recovery of
    a JSON object from the free text of the inference service
    ([extract_json]), the page isolator ([make_page_part]), the field
    inventory ([extract_fields_with_positions]), the page loop and the fill
    loop of the button handler. *)

From Stdlib Require Import ZArith NArith List Ascii String Bool Lia DecimalString.
From stdpp Require Import base option list gmap sorting.

Local Open Scope Z_scope.

(** ** Python strings

    A Python [str] is a sequence of Unicode code points; a code point is a
    natural number. *)

Abbreviation pystr := (list N).

Module Py.

(** A literal of the development, read as code points (ASCII only). *)
Definition lit (s : string) : pystr :=
  map N_of_ascii (list_ascii_of_string s).

(** The same with every apostrophe read as a double quote, to write JSON
    text in examples. *)
Definition jlit (s : string) : pystr :=
  map (fun c => if N.eqb c 39 then 34%N else c) (lit s).

Definition c_newline  : N := 10.
Definition c_dquote   : N := 34.
Definition c_comma    : N := 44.
Definition c_colon    : N := 58.
Definition c_lbracket : N := 91.
Definition c_backslash : N := 92.
Definition c_rbracket : N := 93.
Definition c_lbrace   : N := 123.
Definition c_rbrace   : N := 125.

(** [text.find(c)] for a one-character needle: the index of the first
    occurrence, or -1. *)
Fixpoint find_from (c : N) (s : pystr) (i : Z) : Z :=
  match s with
  | [] => -1
  | x :: t => if N.eqb x c then i else find_from c t (i + 1)
  end.

Definition find (c : N) (s : pystr) : Z := find_from c s 0.

(** [text.rfind(c)]: the index of the last occurrence, or -1. *)
Fixpoint rfind_from (c : N) (s : pystr) (i last : Z) : Z :=
  match s with
  | [] => last
  | x :: t => rfind_from c t (i + 1) (if N.eqb x c then i else last)
  end.

Definition rfind (c : N) (s : pystr) : Z := rfind_from c s 0 (-1).

(** [s[lo:hi]]: a negative bound counts from the end, bounds are clamped to
    the string, and crossed bounds give the empty string. *)
Definition clamp_index (n i : Z) : Z :=
  if i <? 0 then Z.max (i + n) 0 else Z.min i n.

Definition slice (s : pystr) (lo hi : Z) : pystr :=
  let n := Z.of_nat (length s) in
  let lo' := clamp_index n lo in
  let hi' := clamp_index n hi in
  take (Z.to_nat (hi' - lo')) (drop (Z.to_nat lo') s).

(** [\s] of [re] on a [str] pattern: the Unicode white space of
    [str.isspace]. *)
Definition isspace (c : N) : bool :=
  ((9 <=? c) && (c <=? 13) || (28 <=? c) && (c <=? 32) ||
   (c =? 133) || (c =? 160) || (c =? 5760) ||
   (8192 <=? c) && (c <=? 8202) || (c =? 8232) || (c =? 8233) ||
   (c =? 8239) || (c =? 8287) || (c =? 12288))%N.

(** The class [[A-Za-z0-9_]]. *)
Definition isword (c : N) : bool :=
  ((48 <=? c) && (c <=? 57) || (65 <=? c) && (c <=? 90) ||
   (c =? 95) || (97 <=? c) && (c <=? 122))%N.

(** The longest prefix whose characters satisfy [p], and what follows. *)
Fixpoint span (p : N -> bool) (s : pystr) : pystr * pystr :=
  match s with
  | [] => ([], [])
  | c :: t => if p c then let '(a, b) := span p t in (c :: a, b)
              else ([], s)
  end.

End Py.

(** ** The two substitutions of [extract_json]

    [re.sub] scans the subject from left to right; at every position that is
    not inside the previous match it tries the pattern, and on success emits
    the replacement and resumes after the match.  The scanners below walk the
    subject one character at a time; [skip] counts the characters still
    covered by the last match. *)

Module Re.
Import Py.

(** [(?m)^\s*([A-Za-z0-9_]+)\s*:] tried at a line start: the captured
    group and the length of the match.  The three classes [\s],
    [[A-Za-z0-9_]] and [:] are pairwise disjoint, so the greedy choice is
    the only one the backtracking matcher can succeed with. *)
Definition match_key (s : pystr) : option (pystr * nat) :=
  let '(w1, r1) := span isspace s in
  let '(key, r2) := span isword r1 in
  match key with
  | [] => None
  | _ :: _ =>
    let '(w2, r3) := span isspace r2 in
    match r3 with
    | c :: _ =>
      if N.eqb c c_colon
      then Some (key, (length w1 + length key + length w2 + 1)%nat)
      else None
    | [] => None
    end
  end.

(** [re.sub(r'(?m)^\s*([A-Za-z0-9_]+)\s*:', r'"\1":', raw)];
    [bol] tells whether the current position is the start of the subject
    or follows a newline. *)
Fixpoint sub_keys_from (skip : nat) (bol : bool) (s : pystr) : pystr :=
  match s with
  | [] => []
  | c :: t =>
    let bol' := N.eqb c c_newline in
    match skip with
    | S k => sub_keys_from k bol' t
    | O =>
      match (if bol then match_key s else None) with
      | Some (key, n) =>
        (c_dquote :: key) ++ c_dquote :: c_colon
          :: sub_keys_from (n - 1) bol' t
      | None => c :: sub_keys_from 0 bol' t
      end
    end
  end.

Definition sub_keys (s : pystr) : pystr := sub_keys_from 0 true s.

(** [,\s*([}\]])] tried at a position: the captured closer and the length
    of the match. *)
Definition match_comma (s : pystr) : option (N * nat) :=
  match s with
  | c :: t =>
    if N.eqb c c_comma then
      let '(w, r) := span isspace t in
      match r with
      | d :: _ =>
        if N.eqb d c_rbrace || N.eqb d c_rbracket
        then Some (d, (2 + length w)%nat)
        else None
      | [] => None
      end
    else None
  | [] => None
  end.

(** [re.sub(r',\s*([}\]])', r'\1', raw)]. *)
Fixpoint sub_commas_from (skip : nat) (s : pystr) : pystr :=
  match s with
  | [] => []
  | c :: t =>
    match skip with
    | S k => sub_commas_from k t
    | O =>
      match match_comma s with
      | Some (d, n) => d :: sub_commas_from (n - 1) t
      | None => c :: sub_commas_from 0 t
      end
    end
  end.

Definition sub_commas (s : pystr) : pystr := sub_commas_from 0 s.

End Re.

(** ** Exceptions *)

Inductive exn : Type :=
| ValueError (msg : string)
| JSONDecodeError
| TypeError
| IndexError
| LibraryError (tag : N).

(** A computation that returns a value or raises. *)
Abbreviation result A := (exn + A)%type.

Definition bind {A B} (m : result A) (k : A -> result B) : result B :=
  match m with
  | inl e => inl e
  | inr a => k a
  end.

Notation "'let*' x ':=' m 'in' k" := (bind m (fun x => k))
  (at level 10, x pattern, m at level 100, k at level 200, only parsing).

(** ** [extract_json] *)

Definition extract_json (text : pystr) : result pystr :=
  let start := Py.find Py.c_lbrace text in
  let end_ := Py.rfind Py.c_rbrace text in
  if (start =? -1) || (end_ =? -1) then
    inl (ValueError "No JSON object found")
  else
    let raw := Py.slice text start (end_ + 1) in
    let raw := Re.sub_keys raw in
    let raw := Re.sub_commas raw in
    inr raw.

(** ** Python values

    The values [json.loads] builds, which are also the values a widget's
    [field_value] holds.  A float is kept as the literal it was read from;
    a [dict] keeps its keys in insertion order. *)

Inductive pyval : Type :=
| PNone
| PBool (b : bool)
| PInt (z : Z)
| PFloat (literal : pystr)
| PStr (s : pystr)
| PList (items : list pyval)
| PDict (items : list (pystr * pyval)).

(** [d[k] = v] on the items of a [dict]: an existing key keeps its place
    and takes the new value, a new key goes last. *)
Fixpoint dict_set (k : pystr) (v : pyval) (d : list (pystr * pyval))
  : list (pystr * pyval) :=
  match d with
  | [] => [(k, v)]
  | (k', v') :: r =>
    if decide (k = k') then (k, v) :: r else (k', v') :: dict_set k v r
  end.

(** ** [json.loads]

    The decoder of Python's [json] module with its default settings
    ([strict=True], the constants [NaN], [Infinity] and [-Infinity]
    accepted), written as a lexer followed by a recursive-descent parser.
    The message and the position of a [JSONDecodeError] and the recursion
    limit of the interpreter are not modelled. *)

Module Json.
Import Py.

Inductive token : Type :=
| TLBrace | TRBrace | TLBracket | TRBracket | TColon | TComma
| TStr (s : pystr)
| TAtom (v : pyval).

(** The white space of the decoder: space, tab, line feed, return. *)
Definition is_ws (c : N) : bool :=
  ((c =? 32) || (c =? 9) || (c =? 10) || (c =? 13))%N.

Definition isdigit (c : N) : bool := ((48 <=? c) && (c <=? 57))%N.

Definition hexval (c : N) : option N :=
  if isdigit c then Some (c - 48)%N
  else if ((65 <=? c) && (c <=? 70))%N then Some (c - 55)%N
  else if ((97 <=? c) && (c <=? 102))%N then Some (c - 87)%N
  else None.

Definition hex4 (a b c d : N) : option N :=
  x ← hexval a; y ← hexval b; z ← hexval c; w ← hexval d;
  Some (((x * 16 + y) * 16 + z) * 16 + w)%N.

(** The one-character escapes of a string literal: quote, backslash,
    slash, b, f, n, r, t. *)
Definition unescape (e : N) : option N :=
  if (e =? 34)%N then Some 34%N
  else if (e =? 92)%N then Some 92%N
  else if (e =? 47)%N then Some 47%N
  else if (e =? 98)%N then Some 8%N
  else if (e =? 102)%N then Some 12%N
  else if (e =? 110)%N then Some 10%N
  else if (e =? 114)%N then Some 13%N
  else if (e =? 116)%N then Some 9%N
  else None.

Definition is_high_surrogate (u : N) : bool := ((55296 <=? u) && (u <=? 56319))%N.
Definition is_low_surrogate (u : N) : bool := ((56320 <=? u) && (u <=? 57343))%N.
Definition join_surrogates (u u2 : N) : N :=
  (65536 + N.lor (N.shiftl (u - 55296) 10) (u2 - 56320))%N.

Definition push {A} (c : N) (r : option (pystr * A)) : option (pystr * A) :=
  '(s, a) ← r; Some (c :: s, a).

(** [scanstring] after the opening quote: the decoded string and the text
    after the closing quote.  A raw control character is refused
    ([strict]). *)
Fixpoint scan_string (s : pystr) : option (pystr * pystr) :=
  match s with
  | [] => None
  | c :: t =>
    if (c =? c_dquote)%N then Some ([], t)
    else if (c <? 32)%N then None
    else if (c =? c_backslash)%N then
      match t with
      | [] => None
      | e :: t1 =>
        if (e =? 117)%N then
          match t1 with
          | h1 :: h2 :: h3 :: h4 :: t2 =>
            match hex4 h1 h2 h3 h4 with
            | None => None
            | Some u =>
              match t2 with
              | b :: e2 :: g1 :: g2 :: g3 :: g4 :: t3 =>
                if is_high_surrogate u && (b =? c_backslash)%N && (e2 =? 117)%N
                then
                  match hex4 g1 g2 g3 g4 with
                  | None => None
                  | Some u2 =>
                    if is_low_surrogate u2
                    then push (join_surrogates u u2) (scan_string t3)
                    else push u (scan_string t2)
                  end
                else push u (scan_string t2)
              | _ => push u (scan_string t2)
              end
            end
          | _ => None
          end
        else
          match unescape e with
          | Some d => push d (scan_string t1)
          | None => None
          end
      end
    else push c (scan_string t)
  end.

Fixpoint starts_with (p s : pystr) : bool :=
  match p, s with
  | [], _ => true
  | a :: p', b :: s' => (a =? b)%N && starts_with p' s'
  | _ :: _, [] => false
  end.

(** [int(digits)] for a run of decimal digits. *)
Definition int_of_digits (ds : pystr) : Z :=
  fold_left (fun acc d => acc * 10 + Z.of_N (d - 48)) ds 0.

(** [NUMBER_RE]: an optional minus sign and either 0 or a digit 1-9
    followed by digits; then, each optional, a dot with one digit or more,
    and e or E with an optional sign and one digit or more. *)
Definition scan_integer (s : pystr) : option (bool * pystr * pystr) :=
  let '(neg, s1) :=
    match s with
    | c :: t => if (c =? 45)%N then (true, t) else (false, s)
    | [] => (false, s)
    end in
  match s1 with
  | c :: t =>
    if (c =? 48)%N then Some (neg, [c], t)
    else if isdigit c then let '(ds, r) := span isdigit t in Some (neg, c :: ds, r)
    else None
  | [] => None
  end.

Definition scan_frac (s : pystr) : pystr * pystr :=
  match s with
  | c :: t =>
    if (c =? 46)%N then
      match span isdigit t with
      | ([], _) => ([], s)
      | (ds, r) => (c :: ds, r)
      end
    else ([], s)
  | [] => ([], s)
  end.

Definition scan_exp (s : pystr) : pystr * pystr :=
  match s with
  | c :: t =>
    if ((c =? 101) || (c =? 69))%N then
      let '(sign, t1) :=
        match t with
        | d :: t' => if ((d =? 43) || (d =? 45))%N then ([d], t') else ([], t)
        | [] => ([], t)
        end in
      match span isdigit t1 with
      | ([], _) => ([], s)
      | (ds, r) => (c :: sign ++ ds, r)
      end
    else ([], s)
  | [] => ([], s)
  end.

Definition scan_number (s : pystr) : option (pyval * pystr) :=
  '(neg, ds, r) ← scan_integer s;
  let '(frac, r1) := scan_frac r in
  let '(exp, r2) := scan_exp r1 in
  match frac, exp with
  | [], [] => Some (PInt (if neg : bool then - int_of_digits ds else int_of_digits ds), r2)
  | _, _ => Some (PFloat ((if neg : bool then [45%N] else []) ++ ds ++ frac ++ exp), r2)
  end.

Fixpoint lex (fuel : nat) (s : pystr) : option (list token) :=
  match fuel with
  | O => None
  | S f =>
    match s with
    | [] => Some []
    | c :: t =>
      if is_ws c then lex f t
      else if (c =? c_lbrace)%N then cons TLBrace <$> lex f t
      else if (c =? c_rbrace)%N then cons TRBrace <$> lex f t
      else if (c =? c_lbracket)%N then cons TLBracket <$> lex f t
      else if (c =? c_rbracket)%N then cons TRBracket <$> lex f t
      else if (c =? c_colon)%N then cons TColon <$> lex f t
      else if (c =? c_comma)%N then cons TComma <$> lex f t
      else if (c =? c_dquote)%N then
        '(str, r) ← scan_string t; cons (TStr str) <$> lex f r
      else if starts_with (lit "null") s then
        cons (TAtom PNone) <$> lex f (drop 4 s)
      else if starts_with (lit "true") s then
        cons (TAtom (PBool true)) <$> lex f (drop 4 s)
      else if starts_with (lit "false") s then
        cons (TAtom (PBool false)) <$> lex f (drop 5 s)
      else
        match scan_number s with
        | Some (v, r) => cons (TAtom v) <$> lex f r
        | None =>
          if starts_with (lit "NaN") s then
            cons (TAtom (PFloat (lit "NaN"))) <$> lex f (drop 3 s)
          else if starts_with (lit "Infinity") s then
            cons (TAtom (PFloat (lit "Infinity"))) <$> lex f (drop 8 s)
          else if starts_with (lit "-Infinity") s then
            cons (TAtom (PFloat (lit "-Infinity"))) <$> lex f (drop 9 s)
          else None
        end
    end
  end.

Fixpoint parse_value (fuel : nat) (ts : list token)
  : option (pyval * list token) :=
  match fuel with
  | O => None
  | S f =>
    match ts with
    | TStr s :: r => Some (PStr s, r)
    | TAtom v :: r => Some (v, r)
    | TLBracket :: TRBracket :: r => Some (PList [], r)
    | TLBracket :: r => '(vs, r') ← parse_items f r; Some (PList vs, r')
    | TLBrace :: TRBrace :: r => Some (PDict [], r)
    | TLBrace :: r => '(d, r') ← parse_members f [] r; Some (PDict d, r')
    | _ => None
    end
  end
with parse_items (fuel : nat) (ts : list token)
  : option (list pyval * list token) :=
  match fuel with
  | O => None
  | S f =>
    '(v, r) ← parse_value f ts;
    match r with
    | TRBracket :: r' => Some ([v], r')
    | TComma :: r' => '(vs, r'') ← parse_items f r'; Some (v :: vs, r'')
    | _ => None
    end
  end
with parse_members (fuel : nat) (acc : list (pystr * pyval)) (ts : list token)
  : option (list (pystr * pyval) * list token) :=
  match fuel with
  | O => None
  | S f =>
    match ts with
    | TStr k :: TColon :: r =>
      '(v, r1) ← parse_value f r;
      match r1 with
      | TRBrace :: r2 => Some (dict_set k v acc, r2)
      | TComma :: r2 => parse_members f (dict_set k v acc) r2
      | _ => None
      end
    | _ => None
    end
  end.

(** The decoder on the whole text: one value, nothing after it. *)
Definition decode (s : pystr) : option pyval :=
  ts ← lex (S (length s)) s;
  '(v, r) ← parse_value (S (length ts)) ts;
  match r with
  | [] => Some v
  | _ :: _ => None
  end.

Definition loads (s : pystr) : result pyval :=
  match decode s with
  | Some v => inr v
  | None => inl JSONDecodeError
  end.

End Json.

(** ** Valid objects and the substitutions

    The vocabulary of the statement that [extract_json] leaves a valid
    object as it is. *)

(** Some suffix of [s] starts with a match of the second pattern: a comma,
    optional white space, a closing brace or bracket. *)
Fixpoint has_comma_closer (s : pystr) : bool :=
  match s with
  | [] => false
  | _ :: t =>
    match Re.match_comma s with
    | Some _ => true
    | None => has_comma_closer t
    end
  end.

Definition clean_token (t : Json.token) : bool :=
  match t with
  | Json.TStr s => negb (has_comma_closer s)
  | _ => true
  end.

(** No string of the text, key or value, holds a comma followed by optional
    white space and a closing brace or bracket. *)
Definition clean_strings (text : pystr) : bool :=
  match Json.lex (S (length text)) text with
  | Some ts => forallb clean_token ts
  | None => true
  end.

(** Pairs of adjacent tokens no valid text has: a comma before a closer, an
    atom before a colon or before another atom. *)
Definition ok_pair (a b : Json.token) : bool :=
  match a, b with
  | Json.TComma, Json.TRBrace => false
  | Json.TComma, Json.TRBracket => false
  | Json.TAtom _, Json.TColon => false
  | Json.TAtom _, Json.TAtom _ => false
  | _, _ => true
  end.

Fixpoint good (ts : list Json.token) : bool :=
  match ts with
  | [] => true
  | a :: r =>
    match r with
    | [] => true
    | b :: _ => ok_pair a b && good r
    end
  end.

Definition value_start (t : Json.token) : bool :=
  match t with
  | Json.TStr _ | Json.TAtom _ | Json.TLBrace | Json.TLBracket => true
  | _ => false
  end.

Definition value_end (t : Json.token) : bool :=
  match t with
  | Json.TStr _ | Json.TAtom _ | Json.TRBrace | Json.TRBracket => true
  | _ => false
  end.

(** The characters of a number or of a constant. *)
Definition atom_char (c : N) : bool :=
  (Py.isword c || (c =? 46) || (c =? 43) || (c =? 45))%N.

(** A run of Json.tokens that is free of the excluded pairs, starts with a Json.token
    in [first] and ends with a Json.token in [final]. *)
Definition chunk (first final : Json.token -> bool) (c : list Json.token) : Prop :=
  good c = true
  /\ (exists x, head c = Some x /\ first x = true)
  /\ (exists y, last c = Some y /\ final y = true).

Definition is_str (t : Json.token) : bool :=
  match t with Json.TStr _ => true | _ => false end.
Definition is_rbrace (t : Json.token) : bool :=
  match t with Json.TRBrace => true | _ => false end.
Definition is_rbracket (t : Json.token) : bool :=
  match t with Json.TRBracket => true | _ => false end.

(** No suffix of [l], read with [r] after it, starts with a match of the
    second pattern. *)
Definition no_comma_match (l r : pystr) : Prop :=
  forall a c b, l = a ++ c :: b -> Re.match_comma (c :: b ++ r) = None.

(** Neither a comma nor a newline. *)
Definition safe_char (c : N) : bool :=
  negb (N.eqb c Py.c_comma) && negb (N.eqb c Py.c_newline).

(** The token of a punctuation character. *)
Definition punct (c : N) : option Json.token :=
  if N.eqb c Py.c_lbrace then Some Json.TLBrace
  else if N.eqb c Py.c_rbrace then Some Json.TRBrace
  else if N.eqb c Py.c_lbracket then Some Json.TLBracket
  else if N.eqb c Py.c_rbracket then Some Json.TRBracket
  else if N.eqb c Py.c_colon then Some Json.TColon
  else if N.eqb c Py.c_comma then Some Json.TComma
  else None.

(** [lexeme tok l r]: the lexer reads the token [tok] from the characters
    [l], before the text [r]. *)
Inductive lexeme : Json.token -> pystr -> pystr -> Prop :=
| lexeme_punct (c : N) (tok : Json.token) (r : pystr) :
    punct c = Some tok -> lexeme tok [c] r
| lexeme_str (str raw r : pystr) :
    Py.c_newline ∉ raw ->
    (has_comma_closer str = false -> no_comma_match raw r) ->
    lexeme (Json.TStr str) (Py.c_dquote :: raw) r
| lexeme_atom (v : pyval) (l r : pystr) :
    l <> [] -> forallb atom_char l = true -> lexeme (Json.TAtom v) l r.

(** ** Documents

    What the pipeline uses of PyMuPDF ([fitz]): a document is its list of
    pages, a page has a rectangle, contents and the form widgets placed on
    it.  Coordinates are Python floats, kept abstract together with content
    streams, rendered pixmaps and serialised bytes. *)

Inductive widget_type : Type :=
| PDF_WIDGET_TYPE_UNKNOWN
| PDF_WIDGET_TYPE_BUTTON
| PDF_WIDGET_TYPE_CHECKBOX
| PDF_WIDGET_TYPE_COMBOBOX
| PDF_WIDGET_TYPE_LISTBOX
| PDF_WIDGET_TYPE_RADIOBUTTON
| PDF_WIDGET_TYPE_SIGNATURE
| PDF_WIDGET_TYPE_TEXT.

Definition is_checkbox (t : widget_type) : bool :=
  match t with
  | PDF_WIDGET_TYPE_CHECKBOX => true
  | _ => false
  end.

(** The library calls inside the [try] of [make_page_part], and those of its
    [except] branch, each of which may raise. *)
Inductive copy_step : Type :=
| StepInsertPdf | StepWidgets | StepDeleteWidget (i : nat) | StepSave.

Inductive raster_step : Type :=
| StepGetPixmap | StepInsertImage | StepSaveImage.

(** The values the model does not look into: a coordinate (a Python
    float), the content stream of a page, a rendered pixmap, and the bytes
    of a serialised document. *)
Class Opaque : Type := {
  coord : Type;
  stream : Type;
  pixmap : Type;
  bytes : Type
}.

Section Documents.
Context {O : Opaque}.

Record Rect : Type := mkRect { x0 : coord; y0 : coord; x1 : coord; y1 : coord }.

(** A form widget.  [on_state] is what [w.on_state()] gives: the name of
    the appearance a button shows when it is on, the empty string for a
    widget that is no button. *)
Record Widget : Type := mkWidget {
  field_name : pystr;
  field_type : widget_type;
  field_value : pyval;
  widget_rect : Rect;
  on_state : pystr
}.

Inductive contents : Type :=
| Blank
| Drawn (s : stream)
| Image (r : Rect) (pix : pixmap).

Record Page : Type := mkPage {
  page_rect : Rect;
  page_contents : contents;
  page_widgets : list Widget
}.

(** A document is the list of its pages. *)
#[local] Abbreviation Document := (list Page).

(** [types.Part.from_bytes(data=..., mime_type=...)]. *)
Record Part : Type := mkPart { part_data : bytes; part_mime_type : string }.

(** A descriptor of the field inventory. *)
Record Field : Type := mkField {
  f_name : pystr;
  f_type : pystr;
  f_value : pyval;
  f_page : Z;
  f_rect : list coord
}.

(** A descriptor as the page loop passes it on: id, type and rectangle. *)
Record PageField : Type := mkPageField {
  pf_id : pystr;
  pf_type : pystr;
  pf_rect : list coord
}.

(** The instruction of a request, with the data its text is built from. *)
Inductive prompt : Type :=
| REFERRAL_PROMPT
| prompt_ctx (page_no : Z) (page_fields : list PageField)
| prompt_map (page_no : Z) (patient_info : pyval) (field_context : pyval).

End Documents.

Abbreviation Document := (list Page).

(** The library calls the pipeline makes. *)
Class Library {O : Opaque} : Type := {
  (** [Rect.width], [Rect.height], and the rectangle of a page created with
      [new_page(width=w, height=h)]. *)
  rect_width : Rect -> coord;
  rect_height : Rect -> coord;
  page_box : coord -> coord -> Rect;
  (** [fitz.open(stream=b, filetype="pdf")], and [doc.save(buf)] followed by
      [buf.getvalue()]. *)
  fitz_open : bytes -> result Document;
  save_bytes : Document -> bytes;
  (** [page.get_pixmap()]. *)
  render : Page -> pixmap;
  (** Whether a library call of [make_page_part] on page [page_no] of a
      source document raises. *)
  structural_fault : Document -> Z -> copy_step -> option exn;
  raster_fault : Document -> Z -> raster_step -> option exn;
  (** [repr] of a float given by its literal and of a [str], and whether a
      float literal denotes a number other than zero. *)
  float_repr : pystr -> pystr;
  str_repr : pystr -> pystr;
  float_nonzero : pystr -> bool;
  (** [client.models.generate_content(model=..., contents=[...]).text]. *)
  generate_content : string -> list Part -> prompt -> result pystr
}.

Section MedFill.
Context {O : Opaque} {L : Library}.

Definition raise_if {A} (fault : option exn) (a : A) : result A :=
  match fault with
  | Some e => inl e
  | None => inr a
  end.

(** [doc[i]]: the page number [i]; any [i] below the page count is in the
    document, a negative one counting backwards from the end. *)
Definition doc_getitem (doc : Document) (i : Z) : result Page :=
  let n := Z.of_nat (length doc) in
  if n <=? i then inl IndexError
  else
    match doc !! Z.to_nat (if i <? 0 then i mod n else i) with
    | Some p => inr p
    | None => inl IndexError
    end.

(** [dst.insert_pdf(src, from_page=a, to_page=b)] when it does not raise:
    the page numbers are brought into the range of [src] (a negative
    [from_page] is the first page, a negative [to_page] the last) and the
    pages from [a] to [b] are appended to [dst].  The page isolator calls it
    with [a] = [b]; the copy in reverse order for [a] above [b] is left
    out. *)
Definition insert_pdf (dst src : Document) (from_page to_page : Z) : Document :=
  let n := Z.of_nat (length src) in
  let fp := if from_page <? 0 then 0 else Z.min from_page (n - 1) in
  let tp := if to_page <? 0 then n - 1 else Z.min to_page (n - 1) in
  dst ++ take (Z.to_nat (tp - fp + 1)) (drop (Z.to_nat fp) src).

Definition delete_widget (p : Page) (k : nat) : Page :=
  mkPage (page_rect p) (page_contents p) (delete k (page_widgets p)).

(** The loop [for w in dst[0].widgets() or []: dst[0].delete_widget(w)]:
    the widgets [ws] still to visit are the ones left on the page, and the
    widget visited, the [i]-th of the loop, is the first of them. *)
Fixpoint delete_widgets (src : Document) (page_no : Z) (i : nat)
    (ws : list Widget) (p : Page) : result Page :=
  match ws with
  | [] => inr p
  | _ :: ws' =>
    let* p := raise_if (structural_fault src page_no (StepDeleteWidget i))
                (delete_widget p 0) in
    delete_widgets src page_no (S i) ws' p
  end.

Definition pdf_mime : string := "application/pdf".

(** The body of the [try]. *)
Definition copy_page (src : Document) (page_no : Z) : result Part :=
  let dst : Document := [] in
  let* dst := raise_if (structural_fault src page_no StepInsertPdf)
                (insert_pdf dst src (page_no - 1) (page_no - 1)) in
  let* p := doc_getitem dst 0 in
  let* ws := raise_if (structural_fault src page_no StepWidgets) (page_widgets p) in
  let* p := delete_widgets src page_no 0 ws p in
  let dst := <[0%nat := p]> dst in
  let* buf := raise_if (structural_fault src page_no StepSave) (save_bytes dst) in
  inr (mkPart buf pdf_mime).

(** The page the [except] branch builds: a new page of the size of the
    original one, holding its picture. *)
Definition image_page (page : Page) : Page :=
  let rect := page_rect page in
  mkPage (page_box (rect_width rect) (rect_height rect))
         (Image rect (render page)) [].

(** The body of the [except]. *)
Definition raster_page (src : Document) (page_no : Z) : result Part :=
  let* page := doc_getitem src (page_no - 1) in
  let* pix := raise_if (raster_fault src page_no StepGetPixmap) (render page) in
  let new_pdf : Document := [] in
  let rect := page_rect page in
  let new_page := mkPage (page_box (rect_width rect) (rect_height rect)) Blank [] in
  let* new_page := raise_if (raster_fault src page_no StepInsertImage)
                     (mkPage (page_rect new_page) (Image rect pix) []) in
  let new_pdf := new_pdf ++ [new_page] in
  let* buf := raise_if (raster_fault src page_no StepSaveImage) (save_bytes new_pdf) in
  inr (mkPart buf pdf_mime).

(** [try: body except Exception: handler]. *)
Definition try_except {A} (body handler : result A) : result A :=
  match body with
  | inr a => inr a
  | inl _ => handler
  end.

Definition make_page_part (pdf_bytes : bytes) (page_no : Z) : result Part :=
  let* src := fitz_open pdf_bytes in
  try_except (copy_page src page_no) (raster_page src page_no).

(** *** The field inventory *)

Definition rect_floats (r : Rect) : list coord := [x0 r; y0 r; x1 r; y1 r].

Definition field_of (page_num : Z) (w : Widget) : Field :=
  mkField (field_name w)
          (if is_checkbox (field_type w) then Py.lit "checkbox" else Py.lit "text")
          (field_value w)
          page_num
          (rect_floats (widget_rect w)).

(** The two nested loops, [page_num] counting the pages from [start]. *)
Fixpoint fields_from (page_num : Z) (pages : list Page) : list Field :=
  match pages with
  | [] => []
  | p :: ps => map (field_of page_num) (page_widgets p) ++ fields_from (page_num + 1) ps
  end.

Definition extract_fields_with_positions (pdf_bytes : bytes) : result (list Field) :=
  let* doc := fitz_open pdf_bytes in
  inr (fields_from 1 doc).


(** *** Truth value and string form of a value *)

Definition py_bool (v : pyval) : bool :=
  match v with
  | PNone => false
  | PBool b => b
  | PInt z => negb (z =? 0)
  | PFloat l => float_nonzero l
  | PStr s => negb (Nat.eqb (length s) 0)
  | PList l => negb (Nat.eqb (length l) 0)
  | PDict d => negb (Nat.eqb (length d) 0)
  end.

Fixpoint join (sep : pystr) (l : list pystr) : pystr :=
  match l with
  | [] => []
  | x :: r =>
    match r with
    | [] => x
    | _ :: _ => x ++ sep ++ join sep r
    end
  end.

Definition int_repr (z : Z) : pystr :=
  Py.lit (NilZero.string_of_int (Z.to_int z)).

Fixpoint py_repr (v : pyval) : pystr :=
  match v with
  | PNone => Py.lit "None"
  | PBool b => if b then Py.lit "True" else Py.lit "False"
  | PInt z => int_repr z
  | PFloat l => float_repr l
  | PStr s => str_repr s
  | PList l => Py.lit "[" ++ join (Py.lit ", ") (map py_repr l) ++ Py.lit "]"
  | PDict d =>
    Py.lit "{"
      ++ join (Py.lit ", ")
           (map (fun kv => str_repr (fst kv) ++ Py.lit ": " ++ py_repr (snd kv)) d)
      ++ Py.lit "}"
  end.

(** [str(v)]: a [str] is itself, any other value is its [repr]. *)
Definition py_str (v : pyval) : pystr :=
  match v with
  | PStr s => s
  | _ => py_repr v
  end.

(** *** The fill loop *)

(** What a widget holds once [v] is assigned to [w.field_value] and
    [w.update()] has stored it.  A radio button does not keep the string:
    [update] switches it to its on-state when the string is not empty, and
    to "Off" when it is. *)
Definition updated_value (w : Widget) (v : pystr) : pystr :=
  match field_type w with
  | PDF_WIDGET_TYPE_RADIOBUTTON =>
    if Nat.eqb (length v) 0 then Py.lit "Off" else on_state w
  | _ => v
  end.

Definition set_field_value (w : Widget) (v : pystr) : Widget :=
  mkWidget (field_name w) (field_type w) (PStr (updated_value w v))
           (widget_rect w) (on_state w).

(** The body of the inner loop: the assignment to [w.field_value] and
    [w.update()] for a widget whose name is a key of [field_mapping]. *)
Definition fill_widget (field_mapping : gmap pystr pyval) (w : Widget) : Widget :=
  let fid := field_name w in
  match field_mapping !! fid with
  | Some val =>
    if is_checkbox (field_type w)
    then set_field_value w (if py_bool val then Py.lit "Yes" else Py.lit "Off")
    else set_field_value w (py_str val)
  | None => w
  end.

Definition fill_page (field_mapping : gmap pystr pyval) (p : Page) : Page :=
  mkPage (page_rect p) (page_contents p)
         (map (fill_widget field_mapping) (page_widgets p)).

Definition fill_document (field_mapping : gmap pystr pyval) (doc : Document)
  : Document :=
  map (fill_page field_mapping) doc.

(** *** The inference service *)

Definition MODEL_CTX : string := "gemini-2.0-flash".
Definition MODEL_MAP : string := "gemini-2.0-flash".

Definition extract_patient_info (referral_bytes pa_bytes : bytes) : result pyval :=
  let pdf1 := mkPart referral_bytes pdf_mime in
  let pdf2 := mkPart pa_bytes pdf_mime in
  let* response := generate_content "gemini-2.0-flash" [pdf1; pdf2] REFERRAL_PROMPT in
  let* raw := extract_json response in
  Json.loads raw.

(** *** The button handler *)

(** [fields_by_page.setdefault(page, []).append(x)] on the items of the
    [dict]. *)
Fixpoint setdefault_append (page : Z) (x : PageField)
    (d : list (Z * list PageField)) : list (Z * list PageField) :=
  match d with
  | [] => [(page, [x])]
  | (k, l) :: r =>
    if k =? page then (k, l ++ [x]) :: r
    else (k, l) :: setdefault_append page x r
  end.

Definition group_by_page (fields : list Field) : list (Z * list PageField) :=
  fold_left
    (fun d f => setdefault_append (f_page f)
                  (mkPageField (f_name f) (f_type f) (f_rect f)) d)
    fields [].

(** [sorted(fields_by_page.items())]: the keys are distinct, so the order
    is the one of the page numbers. *)
Fixpoint insert_sorted (x : Z * list PageField) (l : list (Z * list PageField))
  : list (Z * list PageField) :=
  match l with
  | [] => [x]
  | y :: r => if fst x <=? fst y then x :: l else y :: insert_sorted x r
  end.

Definition sorted_items (d : list (Z * list PageField)) : list (Z * list PageField) :=
  fold_right insert_sorted [] d.

(** [field_mapping.update(mapping)].  The text [extract_json] returns is
    empty or starts with an opening brace, so that [mapping], when
    [json.loads] returns it, is a [dict] (lemma [recover_returns_dict]); the
    other branch is never taken by the page loop. *)
Definition dict_update (field_mapping : gmap pystr pyval) (mapping : pyval)
  : result (gmap pystr pyval) :=
  match mapping with
  | PDict items =>
    inr (fold_left (fun m kv => <[fst kv := snd kv]> m) items field_mapping)
  | _ => inl TypeError
  end.

#[local] Abbreviation loop_state := (gmap Z pyval * gmap pystr pyval)%type.

(** One iteration of the loop over the pages. *)
Definition page_step (pa_bytes : bytes) (patient_info : pyval)
    (st : loop_state) (item : Z * list PageField) : result loop_state :=
  let '(field_context_by_page, field_mapping) := st in
  let '(page_no, page_fields) := item in
  let* page_part := make_page_part pa_bytes page_no in
  let* resp_ctx := generate_content MODEL_CTX [page_part] (prompt_ctx page_no page_fields) in
  let* raw := extract_json resp_ctx in
  let* ctx := Json.loads raw in
  let field_context_by_page := <[page_no := ctx]> field_context_by_page in
  let* resp_map := generate_content MODEL_MAP [page_part]
                     (prompt_map page_no patient_info ctx) in
  let* raw := extract_json resp_map in
  let* mapping := Json.loads raw in
  let* field_mapping := dict_update field_mapping mapping in
  inr (field_context_by_page, field_mapping).

(** The loop: an exception raised in an iteration leaves the loop. *)
Fixpoint page_loop (pa_bytes : bytes) (patient_info : pyval)
    (st : loop_state) (items : list (Z * list PageField)) : result loop_state :=
  match items with
  | [] => inr st
  | item :: rest =>
    let* st := page_step pa_bytes patient_info st item in
    page_loop pa_bytes patient_info st rest
  end.

Inductive st_error : Type :=
| MissingUpload
| PatientInfoFailed (e : exn).

(** How a run of the handler ends: [st.error] and [st.stop()], an
    exception nothing catches, or the download of the filled form. *)
Inductive outcome : Type :=
| Stopped (err : st_error)
| Uncaught (e : exn)
| Download (data : bytes) (file_name : string) (mime : string).

(** Steps 2 to 4 of the handler. *)
Definition process (pa_bytes : bytes) (patient_info : pyval) : result bytes :=
  let* fields := extract_fields_with_positions pa_bytes in
  let fields_by_page := group_by_page fields in
  let* st := page_loop pa_bytes patient_info (∅, ∅) (sorted_items fields_by_page) in
  let field_mapping := snd st in
  let* doc := fitz_open pa_bytes in
  inr (save_bytes (fill_document field_mapping doc)).

Definition run (pa_file ref_file : option bytes) : outcome :=
  match pa_file, ref_file with
  | Some pa_bytes, Some ref_bytes =>
    match extract_patient_info ref_bytes pa_bytes with
    | inl e => Stopped (PatientInfoFailed e)
    | inr patient_info =>
      match process pa_bytes patient_info with
      | inl e => Uncaught e
      | inr data => Download data "filled_PA.pdf" pdf_mime
      end
    end
  | _, _ => Stopped MissingUpload
  end.

(** *** Vocabulary of the properties *)

(** The widget number [j] of page number [i] (both from 0). *)
Definition widget_at (doc : Document) (i j : nat) : option Widget :=
  p ← doc !! i; page_widgets p !! j.

(** No field name occurs on two different pages. *)
Definition page_disjoint_names (doc : Document) : Prop :=
  forall i j p q w1 w2,
    doc !! i = Some p -> doc !! j = Some q ->
    w1 ∈ page_widgets p -> w2 ∈ page_widgets q ->
    field_name w1 = field_name w2 -> i = j.

(** A page copied without its widgets. *)
Definition stripped_page (page : Page) : Page :=
  mkPage (page_rect page) (page_contents page) [].

(** What the page loop does with a response: [json.loads(extract_json(r))]. *)
Definition recover (response : pystr) : result pyval :=
  let* raw := extract_json response in
  Json.loads raw.

(** The service answers one of the two requests of a page with a text that
    [recover] refuses with [e]. *)
Definition malformed_page_response (pa_bytes : bytes) (patient_info : pyval)
    (item : Z * list PageField) (e : exn) : Prop :=
  exists page_part,
    make_page_part pa_bytes (fst item) = inr page_part
    /\ ((exists resp_ctx,
           generate_content MODEL_CTX [page_part] (prompt_ctx (fst item) (snd item))
             = inr resp_ctx
           /\ recover resp_ctx = inl e)
        \/ (exists resp_ctx ctx resp_map,
              generate_content MODEL_CTX [page_part] (prompt_ctx (fst item) (snd item))
                = inr resp_ctx
              /\ recover resp_ctx = inr ctx
              /\ generate_content MODEL_MAP [page_part]
                    (prompt_map (fst item) patient_info ctx) = inr resp_map
              /\ recover resp_map = inl e)).

(** *** Vocabulary of the further properties *)

(** The descriptor the page loop keeps of a field of the inventory. *)
Definition page_field_of (f : Field) : PageField :=
  mkPageField (f_name f) (f_type f) (f_rect f).

(** The fields of the inventory that are on page [p], in their order. *)
Definition fields_on_page (p : Z) (fields : list Field) : list PageField :=
  map page_field_of (filter (fun f => f_page f = p) fields).

(** What the fill loop does not write: per page the rectangle, the
    contents and, per widget, the name, the type and the rectangle. *)
Definition skeleton (doc : Document)
  : list (Rect * contents * list (pystr * widget_type * Rect)) :=
  map (fun p => (page_rect p, page_contents p,
                 map (fun w => (field_name w, field_type w, widget_rect w))
                     (page_widgets p)))
      doc.

(** The widgets of all pages. *)
Definition all_widgets (doc : Document) : list Widget :=
  concat (map page_widgets doc).

(** One of the two calls to the service for a page raises [e]. *)
Definition page_call_raises (pa_bytes : bytes) (patient_info : pyval)
    (item : Z * list PageField) (e : exn) : Prop :=
  exists page_part,
    make_page_part pa_bytes (fst item) = inr page_part
    /\ (generate_content MODEL_CTX [page_part] (prompt_ctx (fst item) (snd item))
          = inl e
        \/ (exists resp_ctx ctx,
              generate_content MODEL_CTX [page_part] (prompt_ctx (fst item) (snd item))
                = inr resp_ctx
              /\ recover resp_ctx = inr ctx
              /\ generate_content MODEL_MAP [page_part]
                    (prompt_map (fst item) patient_info ctx) = inl e)).

(** The items of a [dict] written one after the other into a field
    mapping, as [field_mapping.update] does. *)
Definition write_items (items : list (pystr * pyval)) (m : gmap pystr pyval)
  : gmap pystr pyval :=
  fold_left (fun m kv => <[fst kv := snd kv]> m) items m.

(** The list stored under a key of the items of a [dict]. *)
Fixpoint assoc (d : list (Z * list PageField)) (q : Z) : option (list PageField) :=
  match d with
  | [] => None
  | (k, l) :: r => if k =? q then Some l else assoc r q
  end.

End MedFill.

(** ** Concrete inputs

    The texts and the documents the examples below are about.  In the
    documents a coordinate is an integer, content streams and pixmaps carry
    no data, and the bytes of a document are a number naming it. *)

Module Examples.

Definition nl : pystr := [Py.c_newline].

(** [{foo: 1, bar: "x",}] on one line, and with one key per line. *)
Definition near_json_one_line : pystr := Py.jlit "{foo: 1, bar: 'x',}".

Definition near_json_lines : pystr :=
  Py.lit "{" ++ nl ++ Py.lit "foo: 1," ++ nl ++ Py.jlit "bar: 'x'," ++ nl ++ Py.lit "}".

Definition foo_bar : pyval :=
  PDict [(Py.lit "foo", PInt 1); (Py.lit "bar", PStr (Py.lit "x"))].

(** A valid object whose string value holds a comma before a brace. *)
Definition comma_in_string : pystr := Py.jlit "{'a': ',}'}".

(** The members of a valid object, and prose to put around it. *)
Definition members : pystr := Py.jlit "'a': [1, 2], 'b': 'x, y'".
Definition prose_before : pystr := Py.lit "Here is the mapping: ".
Definition prose_after : pystr := Py.lit " Let me know if it helps.".

Definition answer_with_prose : pystr :=
  Py.lit "Here is the answer: " ++ comma_in_string ++ Py.lit " I hope it helps.".

#[export] Instance toy : Opaque :=
  {| coord := Z; stream := unit; pixmap := unit; bytes := nat |}.

Definition box (w h : Z) : Rect := mkRect 0 0 w h.

Definition text_widget (name : string) (y : Z) : Widget :=
  mkWidget (Py.lit name) PDF_WIDGET_TYPE_TEXT (PStr []) (mkRect 10 y 200 (y + 20)) [].

Definition checkbox_widget (name : string) (y : Z) : Widget :=
  mkWidget (Py.lit name) PDF_WIDGET_TYPE_CHECKBOX (PStr (Py.lit "Off"))
           (mkRect 10 y 30 (y + 20)) (Py.lit "Yes").


(** The form of the end-to-end scenario: [T1] on page 1, [CB1] on page 2. *)
Definition page_with_T1 : Page :=
  mkPage (box 612 792) (Drawn tt) [text_widget "T1" 100].

Definition page_with_CB1 : Page :=
  mkPage (box 612 792) (Drawn tt) [checkbox_widget "CB1" 100].

Definition two_page_form : Document := [page_with_T1; page_with_CB1].

(** A form whose two pages both carry a widget of the field [T1]. *)
Definition repeated_name_form : Document :=
  [ mkPage (box 612 792) (Drawn tt) [text_widget "T1" 100];
    mkPage (box 612 792) (Drawn tt) [text_widget "T1" 300] ].

(** A library that opens [doc] whatever the bytes, with given faults and a
    given inference service. *)
Definition toy_library (doc : Document)
    (sfault : Z -> copy_step -> option exn)
    (rfault : Z -> raster_step -> option exn)
    (service : prompt -> result pystr) : Library :=
  {| rect_width := fun r => x1 r - x0 r;
     rect_height := fun r => y1 r - y0 r;
     page_box := box;
     fitz_open := fun _ => inr doc;
     save_bytes := fun d => length d;
     render := fun _ => tt;
     structural_fault := fun _ => sfault;
     raster_fault := fun _ => rfault;
     float_repr := fun l => l;
     str_repr := fun s => Py.lit "'" ++ s ++ Py.lit "'";
     float_nonzero := fun l => negb (forallb (fun c => negb (Json.isdigit c) || N.eqb c 48) l);
     generate_content := fun _ _ => service |}.

Definition no_copy_fault : Z -> copy_step -> option exn := fun _ _ => None.
Definition no_raster_fault : Z -> raster_step -> option exn := fun _ _ => None.

(** Deleting the widgets of a copied page fails with a cross-reference
    error. *)
Definition widget_removal_fault : Z -> copy_step -> option exn :=
  fun _ step =>
    match step with
    | StepDeleteWidget _ => Some (LibraryError 1)
    | _ => None
    end.

(** The service of the end-to-end scenario. *)
Definition scenario_service (p : prompt) : result pystr :=
  match p with
  | REFERRAL_PROMPT =>
    inr (Py.jlit "{'patient_info': {'First_Name': 'Jane', 'Smoker': true}}")
  | prompt_ctx 1 _ =>
    inr (Py.jlit "{'T1': {'name': 'T1', 'page': 1, 'question': 'Patient First Name', 'context': 'patient'}}")
  | prompt_ctx _ _ =>
    inr (Py.jlit "{'CB1': {'name': 'CB1', 'page': 2, 'question': 'Is patient a smoker?', 'context': 'patient'}}")
  | prompt_map 1 _ _ => inr (Py.jlit "{'T1': 'Jane'}")
  | prompt_map _ _ _ => inr (Py.jlit "{'CB1': true}")
  end.

(** The same service, answering the annotation of page 1 with prose. *)
Definition prose_on_page_1 (p : prompt) : result pystr :=
  match p with
  | prompt_ctx 1 _ => inr (Py.lit "Sorry, I cannot read this page.")
  | _ => scenario_service p
  end.

Definition scenario_library : Library :=
  toy_library two_page_form no_copy_fault no_raster_fault scenario_service.

Definition prose_library : Library :=
  toy_library two_page_form no_copy_fault no_raster_fault prose_on_page_1.

Definition faulty_copy_library : Library :=
  toy_library two_page_form widget_removal_fault no_raster_fault scenario_service.

Definition repeated_name_library : Library :=
  toy_library repeated_name_form no_copy_fault no_raster_fault scenario_service.

(** The map of the end-to-end scenario. *)
Definition scenario_mapping : gmap pystr pyval :=
  <[Py.lit "CB1" := PBool true]> (<[Py.lit "T1" := PStr (Py.lit "Jane")]> ∅).

(** A form of one page without widgets. *)
Definition page_without_widgets : Page := mkPage (box 612 792) (Drawn tt) [].

Definition form_without_widgets : Document := [page_without_widgets].

Definition plain_library : Library :=
  toy_library form_without_widgets no_copy_fault no_raster_fault scenario_service.

(** The service of the scenario, out of reach when the mapping of page 2
    is asked for. *)
Definition unreachable_on_page_2 (p : prompt) : result pystr :=
  match p with
  | prompt_map 2 _ _ => inl (LibraryError 503)
  | _ => scenario_service p
  end.

Definition unreachable_library : Library :=
  toy_library two_page_form no_copy_fault no_raster_fault unreachable_on_page_2.

(** The map of the scenario with an entry for a field the form does not
    have. *)
Definition mapping_with_stranger : gmap pystr pyval :=
  <[Py.lit "Fax" := PStr (Py.lit "none")]> scenario_mapping.





(** The page cannot be rendered: [get_pixmap] raises. *)
Definition get_pixmap_fault : Z -> raster_step -> option exn :=
  fun _ step =>
    match step with
    | StepGetPixmap => Some (LibraryError 2)
    | _ => None
    end.

(** Neither the copy nor the picture of a page can be made. *)
Definition faulty_fallback_library : Library :=
  toy_library two_page_form widget_removal_fault get_pixmap_fault scenario_service.

End Examples.

(** * Properties *)

(** ** Searching and slicing *)

Section Search.
Import Py.

Lemma find_from_absent (c : N) (s : pystr) (i : Z) :
  c ∉ s -> find_from c s i = -1.
Proof.
  revert i; induction s as [|x s IH]; intros i Hc; simpl; [reflexivity|].
  apply not_elem_of_cons in Hc as [Hx Hs].
  destruct (N.eqb_spec x c); [congruence|]. now apply IH.
Qed.

Lemma find_from_first (c : N) (pre rest : pystr) (i : Z) :
  c ∉ pre -> find_from c (pre ++ c :: rest) i = i + Z.of_nat (length pre).
Proof.
  revert i; induction pre as [|x pre IH]; intros i Hc; simpl.
  - rewrite N.eqb_refl. lia.
  - apply not_elem_of_cons in Hc as [Hx Hs].
    destruct (N.eqb_spec x c); [congruence|]. rewrite IH by assumption. lia.
Qed.

Lemma rfind_from_absent (c : N) (s : pystr) (i last : Z) :
  c ∉ s -> rfind_from c s i last = last.
Proof.
  revert i last; induction s as [|x s IH]; intros i last Hc; simpl; [reflexivity|].
  apply not_elem_of_cons in Hc as [Hx Hs].
  destruct (N.eqb_spec x c); [congruence|]. now apply IH.
Qed.

Lemma rfind_from_last (c : N) (pre post : pystr) (i last : Z) :
  c ∉ post -> rfind_from c (pre ++ c :: post) i last = i + Z.of_nat (length pre).
Proof.
  revert i last; induction pre as [|x pre IH]; intros i last Hc; simpl.
  - rewrite N.eqb_refl, rfind_from_absent by assumption. lia.
  - rewrite IH by assumption. lia.
Qed.

Lemma find_absent (c : N) (s : pystr) : find c s = -1 <-> c ∉ s.
Proof.
  split; [|apply find_from_absent].
  intros Hf Hin. apply list_elem_of_split_l in Hin as (l1 & l2 & -> & Hl1).
  unfold find in Hf. rewrite find_from_first in Hf by assumption. lia.
Qed.

Lemma rfind_absent (c : N) (s : pystr) : rfind c s = -1 <-> c ∉ s.
Proof.
  split; [|apply rfind_from_absent].
  intros Hf Hin. apply list_elem_of_split_r in Hin as (l1 & l2 & -> & Hl2).
  unfold rfind in Hf. rewrite rfind_from_last in Hf by assumption. lia.
Qed.

Lemma find_first (c : N) (pre rest : pystr) :
  c ∉ pre -> find c (pre ++ c :: rest) = Z.of_nat (length pre).
Proof. intros H. unfold find. now rewrite find_from_first. Qed.

Lemma rfind_last (c : N) (pre post : pystr) :
  c ∉ post -> rfind c (pre ++ c :: post) = Z.of_nat (length pre).
Proof. intros H. unfold rfind. now rewrite rfind_from_last. Qed.

(** The slice between two positions of the string. *)
Lemma slice_middle (a b c : pystr) :
  slice (a ++ b ++ c) (Z.of_nat (length a)) (Z.of_nat (length a + length b)) = b.
Proof.
  unfold slice, clamp_index. rewrite !length_app.
  destruct (Z.ltb_spec (Z.of_nat (length a)) 0); [lia|].
  destruct (Z.ltb_spec (Z.of_nat (length a + length b)) 0); [lia|].
  rewrite !Z.min_l by lia.
  replace (Z.to_nat (Z.of_nat (length a + length b) - Z.of_nat (length a)))
    with (length b) by lia.
  rewrite Nat2Z.id, drop_app_length. apply take_app_length.
Qed.

(** Crossed bounds give the empty string. *)
Lemma slice_crossed (s : pystr) (lo hi : Z) :
  0 <= lo -> 0 <= hi -> hi <= lo -> slice s lo hi = [].
Proof.
  intros Hlo Hhi Hle. unfold slice, clamp_index.
  destruct (Z.ltb_spec lo 0); [lia|]. destruct (Z.ltb_spec hi 0); [lia|].
  replace (Z.to_nat _) with 0%nat by lia. apply take_0.
Qed.

End Search.

(** ** [extract_json] *)

Lemma extract_json_cases (text : pystr) :
  (Py.c_lbrace ∈ text /\ Py.c_rbrace ∈ text
   /\ extract_json text =
      inr (Re.sub_commas (Re.sub_keys
            (Py.slice text (Py.find Py.c_lbrace text)
                           (Py.rfind Py.c_rbrace text + 1)))))
  \/ ((Py.c_lbrace ∉ text \/ Py.c_rbrace ∉ text)
      /\ extract_json text = inl (ValueError "No JSON object found")).
Proof.
  unfold extract_json.
  destruct (decide (Py.c_lbrace ∈ text)) as [Hl|Hl];
    destruct (decide (Py.c_rbrace ∈ text)) as [Hr|Hr].
  - left. repeat split; try assumption.
    destruct (Z.eqb_spec (Py.find Py.c_lbrace text) (-1)) as [E|_];
      [apply find_absent in E; contradiction|].
    destruct (Z.eqb_spec (Py.rfind Py.c_rbrace text) (-1)) as [E|_];
      [apply rfind_absent in E; contradiction|].
    reflexivity.
  - right. split; [now right|].
    apply rfind_absent in Hr. rewrite Hr, Z.eqb_refl, orb_true_r. reflexivity.
  - right. split; [now left|].
    apply find_absent in Hl. rewrite Hl, Z.eqb_refl. reflexivity.
  - right. split; [now left|].
    apply find_absent in Hl. rewrite Hl, Z.eqb_refl. reflexivity.
Qed.

(** C2. [extract_json] raises its error, the [ValueError] with the message
    "No JSON object found", exactly when the text has no opening brace or no
    closing brace; when both characters are present it returns a string. *)
Theorem extract_json_fails_iff_delimiter_absent (text : pystr) :
  (extract_json text = inl (ValueError "No JSON object found")
   <-> (Py.c_lbrace ∉ text \/ Py.c_rbrace ∉ text))
  /\ ((exists raw, extract_json text = inr raw)
      <-> (Py.c_lbrace ∈ text /\ Py.c_rbrace ∈ text)).
Proof.
  destruct (extract_json_cases text) as [(Hl & Hr & E)|(Hn & E)]; rewrite E.
  - split; split.
    + discriminate.
    + intros [H|H]; contradiction.
    + tauto.
    + eauto.
  - split; split.
    + tauto.
    + reflexivity.
    + intros [raw H]; discriminate.
    + intros [Hl Hr]. destruct Hn; contradiction.
Qed.

(** C9. When the last closing brace of the text stands before its first
    opening brace, [extract_json] does not raise: the slice bounds cross and
    it returns the empty string. *)
Theorem extract_json_misordered_delimiters (pre mid post : pystr) :
  Py.c_lbrace ∉ pre -> Py.c_lbrace ∉ mid ->
  Py.c_rbrace ∉ mid -> Py.c_rbrace ∉ post ->
  extract_json (pre ++ Py.c_rbrace :: mid ++ Py.c_lbrace :: post) = inr [].
Proof.
  intros Hpre Hmid Hmid' Hpost.
  set (text := pre ++ Py.c_rbrace :: mid ++ Py.c_lbrace :: post).
  assert (Hstart : Py.find Py.c_lbrace text
                   = Z.of_nat (length (pre ++ Py.c_rbrace :: mid))).
  { unfold text.
    replace (pre ++ Py.c_rbrace :: mid ++ Py.c_lbrace :: post)
      with ((pre ++ Py.c_rbrace :: mid) ++ Py.c_lbrace :: post)
      by (now rewrite <- app_assoc).
    apply find_first. rewrite not_elem_of_app, not_elem_of_cons.
    repeat split; try assumption. discriminate. }
  assert (Hend : Py.rfind Py.c_rbrace text = Z.of_nat (length pre)).
  { unfold text. apply rfind_last.
    rewrite not_elem_of_app, not_elem_of_cons.
    repeat split; try assumption. discriminate. }
  destruct (extract_json_cases text) as [(_ & _ & E)|([H|H] & _)].
  - rewrite E, Hstart, Hend, slice_crossed; [reflexivity| | |];
      rewrite ?length_app; simpl; lia.
  - exfalso. apply H. unfold text.
    rewrite elem_of_app, !elem_of_cons, elem_of_app, elem_of_cons. tauto.
  - exfalso. apply H. unfold text. rewrite elem_of_app, !elem_of_cons. tauto.
Qed.

(** C9 on the text made of a closing brace, the word prose and an opening
    brace. *)
Lemma extract_json_misordered_delimiters_witness :
  extract_json (Py.lit "} prose {") = inr [].
Proof.
  apply (extract_json_misordered_delimiters [] (Py.lit " prose ") []);
    apply (bool_decide_unpack _); vm_compute; exact I.
Defined.

(** C4. On the one-line text of the example the keys are not at a line
    start: only the trailing comma is removed and the output is not JSON.
    With one key per line the output parses to the object with [foo] = 1 and
    [bar] = "x". *)
Theorem extract_json_repairs_keys_at_line_starts :
  (exists raw, extract_json Examples.near_json_lines = inr raw
               /\ Json.loads raw = inr Examples.foo_bar)
  /\ extract_json Examples.near_json_one_line = inr (Py.jlit "{foo: 1, bar: 'x'}")
  /\ Json.loads (Py.jlit "{foo: 1, bar: 'x'}") = inl JSONDecodeError.
Proof.
  split; [|split].
  - eexists. split; [vm_compute; reflexivity|]. vm_compute. reflexivity.
  - vm_compute. reflexivity.
  - vm_compute. reflexivity.
Qed.

(** C4 fails on the one-line text: what [extract_json] returns for it does
    not parse to the object. *)
Lemma extract_json_one_line_not_repaired :
  ~ (exists raw, extract_json Examples.near_json_one_line = inr raw
                 /\ Json.loads raw = inr Examples.foo_bar).
Proof.
  intros (raw & E & L). vm_compute in E. injection E as <-.
  vm_compute in L. discriminate.
Qed.

(** C3 fails on a valid object with a comma before a brace inside a string:
    the comma is removed and the parsed object differs. *)
Lemma extract_json_corrupts_comma_in_string :
  Json.loads Examples.comma_in_string
    = inr (PDict [(Py.lit "a", PStr (Py.lit ",}"))])
  /\ (let* raw := extract_json Examples.answer_with_prose in Json.loads raw)
    = inr (PDict [(Py.lit "a", PStr (Py.lit "}"))])
  /\ (let* raw := extract_json Examples.answer_with_prose in Json.loads raw)
    <> Json.loads Examples.comma_in_string.
Proof.
  split; [|split].
  - vm_compute. reflexivity.
  - vm_compute. reflexivity.
  - vm_compute. intros E. inversion E.
Qed.

(** ** Valid objects and the substitutions *)

Section TokenGrammar.
Import Json.

Lemma good_cons (a : token) (ts : list token) :
  good (a :: ts) = true ->
  good ts = true /\ (forall b, head ts = Some b -> ok_pair a b = true).
Proof.
  destruct ts as [|b ts]; simpl.
  - intros _. split; [reflexivity|discriminate].
  - intros [Hab Hts]%andb_true_iff. split; [assumption|]. now intros ? [= <-].
Qed.

Lemma good_app (a b : list token) :
  good a = true -> good b = true ->
  (forall x y, last a = Some x -> head b = Some y -> ok_pair x y = true) ->
  good (a ++ b) = true.
Proof.
  induction a as [|x a IH]; intros Ha Hb Hxy; [assumption|].
  destruct a as [|x' a].
  - destruct b as [|y b]; [reflexivity|]. simpl in *.
    rewrite Hxy by reflexivity. assumption.
  - change ((x :: x' :: a) ++ b) with (x :: (x' :: a) ++ b).
    change (good (x :: x' :: a)) with (ok_pair x x' && good (x' :: a)) in Ha.
    apply andb_true_iff in Ha as [Hxx' Ha].
    change (good (x :: (x' :: a) ++ b))
      with (ok_pair x x' && good ((x' :: a) ++ b)).
    rewrite Hxx'. simpl. apply IH; auto.
Qed.

Lemma chunk_single (first final : token -> bool) (t : token) :
  first t = true -> final t = true -> chunk first final [t].
Proof. intros Hf Hl. repeat split; simpl; eauto. Qed.

Lemma chunk_cons (first first' final : token -> bool) (t : token) (c : list token) :
  chunk first' final c -> first t = true ->
  (forall x, first' x = true -> ok_pair t x = true) ->
  chunk first final (t :: c).
Proof.
  intros (Hg & (x & Hx & Hfx) & (y & Hy & Hfy)) Hft Hok.
  destruct c as [|x' c]; [discriminate|]. injection Hx as ->.
  repeat split.
  - change (ok_pair t x && good (x :: c) = true). now rewrite Hok, Hg.
  - exists t. auto.
  - exists y. split; [|assumption]. now rewrite last_cons, Hy.
Qed.

Lemma chunk_snoc (first final final' : token -> bool) (c : list token) (t : token) :
  chunk first final' c -> final t = true ->
  (forall y, final' y = true -> ok_pair y t = true) ->
  chunk first final (c ++ [t]).
Proof.
  intros (Hg & (x & Hx & Hfx) & (y & Hy & Hfy)) Hft Hok.
  repeat split.
  - apply good_app; auto. intros x' y' Hx' [= <-].
    rewrite Hy in Hx'. injection Hx' as <-. auto.
  - exists x. split; [|assumption]. destruct c; [discriminate|]. exact Hx.
  - exists t. split; [apply last_snoc|assumption].
Qed.

Lemma chunk_app (first final first' final' : token -> bool) (c c' : list token) :
  chunk first final' c -> chunk first' final c' ->
  (forall x y, final' x = true -> first' y = true -> ok_pair x y = true) ->
  chunk first final (c ++ c').
Proof.
  intros (Hg & (x & Hx & Hfx) & (y & Hy & Hfy))
         (Hg' & (x' & Hx' & Hfx') & (y' & Hy' & Hfy')) Hok.
  repeat split.
  - apply good_app; auto. intros a b Ha Hb.
    rewrite Hy in Ha. rewrite Hx' in Hb. injection Ha as <-. injection Hb as <-. auto.
  - exists x. split; [|assumption]. destruct c; [discriminate|]. exact Hx.
  - exists y'. split; [|assumption]. destruct c' as [|z c']; [discriminate|].
    rewrite last_app, Hy'. reflexivity.
Qed.

Lemma chunk_final (first final final' : token -> bool) (c : list token) :
  chunk first final c -> (forall y, final y = true -> final' y = true) ->
  chunk first final' c.
Proof.
  intros (Hg & Hx & (y & Hy & Hfy)) Himp. repeat split; eauto.
Qed.

Lemma parse_chunks (f : nat) :
  (forall ts v r, parse_value f ts = Some (v, r) ->
     exists c, ts = c ++ r /\ chunk value_start value_end c)
  /\ (forall ts vs r, parse_items f ts = Some (vs, r) ->
        exists c, ts = c ++ r /\ chunk value_start is_rbracket c)
  /\ (forall acc ts d r, parse_members f acc ts = Some (d, r) ->
        exists c, ts = c ++ r /\ chunk is_str is_rbrace c).
Proof.
  induction f as [|f (IHv & IHi & IHm)]; [repeat split; intros; discriminate|].
  repeat split.
  - intros ts v r Hp. simpl in Hp.
    destruct ts as [|t ts]; [discriminate|].
    destruct t; try discriminate.
    + (* an object *)
      destruct ts as [|t' ts'].
      * simpl in Hp. destruct f; discriminate.
      * assert (Hcases :
          (t' = TRBrace /\ r = ts')
          \/ exists d, parse_members f [] (t' :: ts') = Some (d, r)).
        { destruct t'; simpl in Hp;
            try (destruct (parse_members f [] _) as [[d r']|] eqn:E;
                 simpl in Hp; [|discriminate]; injection Hp as _ <-; right; eauto).
          left. injection Hp as _ <-. auto. }
        destruct Hcases as [[-> ->]|[d Hd]].
        -- exists [TLBrace; TRBrace]. split; [reflexivity|]. repeat split; simpl; eauto.
        -- apply IHm in Hd as (c & -> & Hc). exists (TLBrace :: c). split; [reflexivity|].
           apply (chunk_final _ is_rbrace); [|intros y Hy; now destruct y].
           apply (chunk_cons _ _ _ _ _ Hc); [reflexivity|]. intros x _. reflexivity.
    + (* an array *)
      destruct ts as [|t' ts'].
      * simpl in Hp. destruct f as [|[|f']]; discriminate.
      * assert (Hcases :
          (t' = TRBracket /\ r = ts')
          \/ exists vs, parse_items f (t' :: ts') = Some (vs, r)).
        { destruct t'; simpl in Hp;
            try (destruct (parse_items f _) as [[vs r']|] eqn:E;
                 simpl in Hp; [|discriminate]; injection Hp as _ <-; right; eauto).
          left. injection Hp as _ <-. auto. }
        destruct Hcases as [[-> ->]|[vs Hvs]].
        -- exists [TLBracket; TRBracket]. split; [reflexivity|]. repeat split; simpl; eauto.
        -- apply IHi in Hvs as (c & -> & Hc). exists (TLBracket :: c). split; [reflexivity|].
           apply (chunk_final _ is_rbracket); [|intros y Hy; now destruct y].
           apply (chunk_cons _ _ _ _ _ Hc); [reflexivity|]. intros x _. reflexivity.
    + injection Hp as <- <-. exists [TStr s]. split; [reflexivity|].
      now apply chunk_single.
    + injection Hp as <- <-. exists [TAtom v0]. split; [reflexivity|].
      now apply chunk_single.
  - intros ts vs r Hp. simpl in Hp.
    destruct (parse_value f ts) as [[v r1]|] eqn:Hv; simpl in Hp; [|discriminate].
    apply IHv in Hv as (c & -> & Hc).
    destruct r1 as [|t r1]; [discriminate|]. destruct t; try discriminate.
    + injection Hp as _ <-. exists (c ++ [TRBracket]).
      split; [now rewrite <- app_assoc|].
      eapply chunk_snoc; eauto. intros y Hy. now destruct y.
    + destruct (parse_items f r1) as [[vs' r2]|] eqn:Hi; simpl in Hp; [|discriminate].
      injection Hp as _ <-. apply IHi in Hi as (c' & -> & Hc').
      exists (c ++ TComma :: c'). split; [now rewrite <- app_assoc|].
      eapply (chunk_app _ _ (fun t => match t with TComma => true | _ => false end));
        [exact Hc| |].
      * eapply chunk_cons; eauto. intros x Hx. now destruct x.
      * intros x y Hx Hy. destruct y; try discriminate. now destruct x.
  - intros acc ts d r Hp. simpl in Hp.
    destruct ts as [|t ts]; [discriminate|]. destruct t; try discriminate.
    destruct ts as [|t ts]; [discriminate|]. destruct t; try discriminate.
    destruct (parse_value f ts) as [[v r1]|] eqn:Hv; simpl in Hp; [|discriminate].
    apply IHv in Hv as (c & -> & Hc).
    assert (Hkc : forall tail, chunk value_start is_rbrace tail ->
                   chunk is_str is_rbrace (TStr s :: TColon :: tail)).
    { intros tail Ht. eapply chunk_cons; [| reflexivity |].
      - eapply (chunk_cons (fun t => match t with TColon => true | _ => false end));
          [exact Ht|reflexivity|]. intros x Hx. now destruct x.
      - intros x Hx. now destruct x. }
    destruct r1 as [|t r1]; [discriminate|]. destruct t; try discriminate.
    + injection Hp as _ <-. exists (TStr s :: TColon :: c ++ [TRBrace]).
      split; [simpl; now rewrite <- app_assoc|].
      apply Hkc. eapply chunk_snoc; eauto. intros y Hy. now destruct y.
    + apply IHm in Hp as (c' & -> & Hc').
      exists (TStr s :: TColon :: c ++ TComma :: c').
      split; [simpl; now rewrite <- app_assoc|].
      apply Hkc.
      eapply (chunk_app _ _ (fun t => match t with TComma => true | _ => false end));
        [exact Hc| |].
      * eapply chunk_cons; eauto. intros x Hx. now destruct x.
      * intros x y Hx Hy. destruct y; try discriminate. now destruct x.
Qed.

(** The tokens of a text the decoder accepts are free of the excluded
    pairs. *)
Lemma decode_good (s : pystr) (v : pyval) :
  decode s = Some v ->
  exists ts, lex (S (length s)) s = Some ts /\ good ts = true.
Proof.
  unfold decode. intros Hd.
  destruct (lex (S (length s)) s) as [ts|]; [|discriminate].
  cbn [mbind option_bind] in Hd.
  exists ts. split; [reflexivity|].
  destruct (parse_value (S (length ts)) ts) as [[v' r]|] eqn:Hv; [|discriminate].
  cbn [mbind option_bind] in Hd.
  destruct r; [|discriminate].
  apply (proj1 (parse_chunks _)) in Hv as (c & -> & Hg & _).
  now rewrite app_nil_r.
Qed.

End TokenGrammar.

Section Classes.
Import Py Json.

(** Character classes. *)

Ltac class_facts :=
  repeat match goal with
         | H : _ = true |- _ =>
           first [ apply andb_true_iff in H as [? ?]
                 | apply orb_true_iff in H as [?|?]
                 | apply N.leb_le in H
                 | apply N.eqb_eq in H ]
         end.

Lemma isword_not_space (c : N) : isword c = true -> isspace c = false.
Proof.
  intros Hw. apply not_true_iff_false. intros Hs.
  unfold isword in Hw. unfold isspace in Hs. class_facts; lia.
Qed.

Lemma is_ws_isspace (c : N) : is_ws c = true -> isspace c = true.
Proof. unfold is_ws. intros H. class_facts; subst; reflexivity. Qed.


Lemma is_ws_not_comma (c : N) : is_ws c = true -> c <> c_comma.
Proof. unfold is_ws. intros H. class_facts; subst; discriminate. Qed.

Lemma isdigit_atom_char (c : N) : isdigit c = true -> atom_char c = true.
Proof.
  intros H. unfold atom_char. apply orb_true_iff. left. apply orb_true_iff. left.
  apply orb_true_iff. left. unfold isword. unfold isdigit in H. now rewrite H.
Qed.

Lemma atom_char_not_space (c : N) : atom_char c = true -> isspace c = false.
Proof.
  unfold atom_char. intros H.
  apply orb_true_iff in H as [H|H]; [apply orb_true_iff in H as [H|H];
    [apply orb_true_iff in H as [H|H]|]|].
  - now apply isword_not_space.
  - apply N.eqb_eq in H as ->. reflexivity.
  - apply N.eqb_eq in H as ->. reflexivity.
  - apply N.eqb_eq in H as ->. reflexivity.
Qed.

Lemma atom_char_cases (c : N) :
  atom_char c = true ->
  isword c = true \/ (isword c = false /\ isspace c = false /\ c <> c_colon).
Proof.
  unfold atom_char. intros H.
  destruct (isword c) eqn:Hw; [now left|right]. simpl in H.
  apply orb_true_iff in H as [H|H]; [apply orb_true_iff in H as [H|H]|];
    apply N.eqb_eq in H as ->; repeat split; discriminate.
Qed.


End Classes.

Section Spans.
Import Py.

Lemma span_spec (p : N -> bool) (s a b : pystr) :
  span p s = (a, b) ->
  s = a ++ b /\ forallb p a = true /\ (forall c t, b = c :: t -> p c = false).
Proof.
  revert a b; induction s as [|c s IH]; intros a b Hs; simpl in Hs.
  - injection Hs as <- <-. repeat split. discriminate.
  - destruct (p c) eqn:Hc.
    + destruct (span p s) as [a' b']. injection Hs as <- <-.
      destruct (IH _ _ eq_refl) as (-> & Ha & Hb). simpl. rewrite Hc. auto.
    + injection Hs as <- <-. repeat split. now intros ? ? [= <- <-].
Qed.

Lemma span_stop (p : N -> bool) (s : pystr) :
  (forall c t, s = c :: t -> p c = false) -> span p s = ([], s).
Proof.
  destruct s as [|c s]; intros H; simpl; [reflexivity|].
  now rewrite (H c s eq_refl).
Qed.

Lemma span_app (p : N -> bool) (a s : pystr) :
  forallb p a = true ->
  span p (a ++ s) = (a ++ fst (span p s), snd (span p s)).
Proof.
  induction a as [|c a IH]; intros Ha; simpl in *.
  - now destruct (span p s).
  - apply andb_true_iff in Ha as [Hc Ha]. rewrite Hc, (IH Ha). reflexivity.
Qed.

(** A prefix of [l ++ r] cut at the first character of [l] outside [p]. *)
Lemma span_cut (p : N -> bool) (k m r : pystr) (x : N) :
  forallb p k = true -> p x = false ->
  span p (k ++ x :: m ++ r) = (k, x :: m ++ r).
Proof.
  intros Hk Hx. rewrite span_app by assumption. simpl. rewrite Hx. simpl.
  now rewrite app_nil_r.
Qed.

Lemma forallb_split (p q : N -> bool) (l : pystr) :
  forallb p l = true ->
  forallb q l = true
  \/ exists k x m, l = k ++ x :: m /\ forallb q k = true /\ q x = false /\ p x = true.
Proof.
  induction l as [|c l IH]; intros Hl; simpl in *; [now left|].
  apply andb_true_iff in Hl as [Hc Hl].
  destruct (q c) eqn:Hq.
  - destruct (IH Hl) as [Hall|(k & x & m & -> & Hk & Hx & Hpx)].
    + left. assumption.
    + right. exists (c :: k), x, m. simpl. rewrite Hq. auto.
  - right. exists [], c, l. auto.
Qed.

End Spans.

Section Strings.
Import Py Json Re.

Lemma no_comma_match_nil (r : pystr) : no_comma_match [] r.
Proof. intros [|? ?] c b E; discriminate. Qed.

Lemma no_comma_match_cons (c : N) (l r : pystr) :
  match_comma (c :: l ++ r) = None -> no_comma_match l r ->
  no_comma_match (c :: l) r.
Proof.
  intros Hc Hl [|x a] c' b E; simpl in E.
  - injection E as <- <-. exact Hc.
  - injection E as <- ->. eapply Hl. reflexivity.
Qed.

Lemma match_comma_other (c : N) (t : pystr) :
  c <> c_comma -> match_comma (c :: t) = None.
Proof. intros Hc. simpl. destruct (N.eqb_spec c c_comma); [contradiction|reflexivity]. Qed.

Lemma no_comma_match_safe (p l r : pystr) :
  forallb safe_char p = true -> no_comma_match l r -> no_comma_match (p ++ l) r.
Proof.
  induction p as [|c p IH]; intros Hp Hl; [assumption|]. simpl in Hp.
  apply andb_true_iff in Hp as [Hc Hp]. simpl. apply no_comma_match_cons; [|auto].
  apply match_comma_other. unfold safe_char in Hc.
  apply andb_true_iff in Hc as [Hc _]. now destruct (N.eqb_spec c c_comma).
Qed.

Lemma safe_no_newline (p : pystr) : forallb safe_char p = true -> c_newline ∉ p.
Proof.
  induction p as [|c p IH]; intros Hp; [apply not_elem_of_nil|]. simpl in Hp.
  apply andb_true_iff in Hp as [Hc Hp]. apply not_elem_of_cons. split; [|auto].
  unfold safe_char in Hc. apply andb_true_iff in Hc as [_ Hc].
  destruct (N.eqb_spec c c_newline); [discriminate|congruence].
Qed.

Lemma push_Some {A} (c : N) (r : option (pystr * A)) (s : pystr) (a : A) :
  push c r = Some (s, a) -> exists s', r = Some (s', a) /\ s = c :: s'.
Proof.
  destruct r as [[s' a']|]; simpl; [|discriminate]. intros [= <- <-]. eauto.
Qed.

(** A character that is not a quote, a control character or a backslash
    stands for itself. *)
Lemma scan_string_plain (c : N) (t : pystr) :
  c <> c_dquote -> (c <? 32)%N = false -> c <> c_backslash ->
  scan_string (c :: t) = push c (scan_string t).
Proof.
  intros Hq Hc Hb. simpl. rewrite Hc.
  destruct (N.eqb_spec c c_dquote); [contradiction|].
  destruct (N.eqb_spec c c_backslash); [contradiction|]. reflexivity.
Qed.

Lemma hexval_safe (c : N) (v : N) : hexval c = Some v -> safe_char c = true.
Proof.
  unfold hexval, safe_char. intros H.
  destruct (N.eqb_spec c c_comma) as [->|_]; [discriminate|].
  destruct (N.eqb_spec c c_newline) as [->|_]; [discriminate|]. reflexivity.
Qed.

Lemma hex4_safe (a b c d u : N) :
  hex4 a b c d = Some u -> forallb safe_char [a; b; c; d] = true.
Proof.
  unfold hex4. intros H.
  destruct (hexval a) eqn:Ha; [|discriminate].
  destruct (hexval b) eqn:Hb; [|discriminate].
  destruct (hexval c) eqn:Hc; [|discriminate].
  destruct (hexval d) eqn:Hd; [|discriminate]. simpl.
  now rewrite (hexval_safe _ _ Ha), (hexval_safe _ _ Hb), (hexval_safe _ _ Hc),
    (hexval_safe _ _ Hd).
Qed.

Lemma unescape_safe (e d : N) : unescape e = Some d -> safe_char e = true.
Proof.
  unfold unescape, safe_char. intros H.
  destruct (N.eqb_spec e c_comma) as [->|_]; [discriminate|].
  destruct (N.eqb_spec e c_newline) as [->|_]; [discriminate|]. reflexivity.
Qed.

(** One step of [scan_string]: it fails, or closes the string, or decodes
    one character from a prefix that holds no comma and no newline (or is a
    single comma) and goes on. *)
Lemma scan_string_step (t : pystr) :
  scan_string t = None
  \/ (exists r, t = c_dquote :: r /\ scan_string t = Some ([], r))
  \/ (exists p x t', t = p ++ t' /\ p <> []
                     /\ (forallb safe_char p = true \/ (p = [c_comma] /\ x = c_comma))
                     /\ scan_string t = push x (scan_string t')).
Proof.
  destruct t as [|c t]; [now left|].
  destruct (N.eqb_spec c c_dquote) as [->|Hq].
  { right. left. eauto. }
  destruct (N.ltb_spec c 32) as [Hlt|Hge].
  { left. simpl. destruct (N.eqb_spec c c_dquote); [contradiction|].
    destruct (N.ltb_spec c 32); [reflexivity|lia]. }
  assert (Hc32 : (c <? 32)%N = false) by (apply N.ltb_ge; assumption).
  destruct (N.eqb_spec c c_backslash) as [->|Hb].
  2: { right. right. exists [c], c, t. split; [reflexivity|]. split; [discriminate|].
       split; [|now apply scan_string_plain].
       destruct (N.eqb_spec c c_comma) as [->|Hcomma]; [now right|left].
       simpl. unfold safe_char.
       destruct (N.eqb_spec c c_comma); [contradiction|].
       destruct (N.eqb_spec c c_newline) as [->|]; [|reflexivity].
       unfold c_newline in Hge. lia. }
  destruct t as [|e t]; [now left|].
  destruct (N.eqb_spec e 117) as [->|He].
  2: { simpl. destruct (N.eqb_spec e 117); [contradiction|].
       destruct (unescape e) as [d|] eqn:Hd; [|now left].
       right. right. exists [c_backslash; e], d, t. split; [reflexivity|].
       split; [discriminate|]. split; [|reflexivity]. left. simpl.
       now rewrite (unescape_safe _ _ Hd). }
  destruct t as [|h1 [|h2 [|h3 [|h4 t]]]]; try (now left).
  destruct (hex4 h1 h2 h3 h4) as [u|] eqn:Hu; [|left; simpl; now rewrite Hu].
  pose proof (hex4_safe _ _ _ _ _ Hu) as Hsafe.
  assert (Hlone :
    exists p x t', c_backslash :: 117%N :: h1 :: h2 :: h3 :: h4 :: t = p ++ t'
                   /\ p <> []
                   /\ (forallb safe_char p = true \/ (p = [c_comma] /\ x = c_comma))
                   /\ push u (scan_string t) = push x (scan_string t')).
  { exists [c_backslash; 117%N; h1; h2; h3; h4], u, t.
    split; [reflexivity|]. split; [discriminate|]. split; [|reflexivity].
    left. exact Hsafe. }
  destruct t as [|b [|e2 [|g1 [|g2 [|g3 [|g4 t9]]]]]];
    try (right; right; destruct Hlone as (p & x & t' & E & Hp & Hs & Hpush);
         exists p, x, t'; repeat split; try assumption;
         rewrite <- Hpush; simpl; now rewrite Hu).
  destruct (is_high_surrogate u && (b =? c_backslash)%N && (e2 =? 117)%N) eqn:Hpair.
  2: { right; right; destruct Hlone as (p & x & t' & E & Hp & Hs & Hpush);
       exists p, x, t'; repeat split; try assumption.
       rewrite <- Hpush. simpl. rewrite Hu. simpl in Hpair. now rewrite Hpair. }
  destruct (hex4 g1 g2 g3 g4) as [u2|] eqn:Hu2.
  2: { left. simpl. rewrite Hu. simpl in Hpair. now rewrite Hpair, Hu2. }
  destruct (is_low_surrogate u2) eqn:Hlow.
  2: { right; right; destruct Hlone as (p & x & t' & E & Hp & Hs & Hpush);
       exists p, x, t'; repeat split; try assumption.
       rewrite <- Hpush. simpl. rewrite Hu. simpl in Hpair.
       now rewrite Hpair, Hu2, Hlow. }
  right. right.
  exists [c_backslash; 117%N; h1; h2; h3; h4; b; e2; g1; g2; g3; g4],
         (join_surrogates u u2), t9.
  split; [reflexivity|]. split; [discriminate|]. split.
  - left. pose proof (hex4_safe _ _ _ _ _ Hu2) as Hsafe2.
    apply andb_true_iff in Hpair as [Hpair He2].
    apply andb_true_iff in Hpair as [_ Hb2].
    apply N.eqb_eq in He2 as ->. apply N.eqb_eq in Hb2 as ->.
    change (forallb safe_char
              ([c_backslash; 117%N] ++ [h1; h2; h3; h4]
               ++ [c_backslash; 117%N] ++ [g1; g2; g3; g4]) = true).
    rewrite !forallb_app, Hsafe, Hsafe2. reflexivity.
  - simpl. rewrite Hu. simpl in Hpair. now rewrite Hpair, Hu2, Hlow.
Qed.

End Strings.

Section Strings2.
Import Py Json Re.

Lemma match_comma_spec (t : pystr) :
  match_comma (c_comma :: t) <> None ->
  exists w d x, span isspace t = (w, d :: x) /\ (d = c_rbrace \/ d = c_rbracket).
Proof.
  simpl. destruct (span isspace t) as [w [|d x]]; [congruence|].
  destruct (N.eqb_spec d c_rbrace) as [->|_]; [eauto 6|].
  destruct (N.eqb_spec d c_rbracket) as [->|_]; [eauto 6|]. simpl. congruence.
Qed.

Lemma match_comma_hit (t w x : pystr) (d : N) :
  span isspace t = (w, d :: x) -> d = c_rbrace \/ d = c_rbracket ->
  match_comma (c_comma :: t) <> None.
Proof.
  intros Hs Hd. simpl. rewrite Hs. destruct Hd as [->| ->]; simpl; congruence.
Qed.

(** White space and a closer at the head of a string literal are the same
    characters at the head of the decoded string. *)
Lemma scan_string_closer (t : pystr) :
  forall str r w d x,
    scan_string t = Some (str, r) ->
    span isspace t = (w, d :: x) -> d = c_rbrace \/ d = c_rbracket ->
    exists x', span isspace str = (w, d :: x').
Proof.
  induction t as [|c t IH]; intros str r w d x Hscan Hspan Hd; [discriminate|].
  simpl in Hspan. destruct (isspace c) eqn:Hc.
  - destruct (span isspace t) as [w' r'] eqn:Ht. injection Hspan as <- ->.
    destruct (N.ltb_spec c 32) as [Hlt|Hge].
    { exfalso. simpl in Hscan.
      destruct (N.eqb_spec c c_dquote) as [->|_]; [discriminate|].
      destruct (N.ltb_spec c 32); [discriminate|lia]. }
    rewrite scan_string_plain in Hscan.
    + apply push_Some in Hscan as (str' & Hscan & ->).
      destruct (IH _ _ _ _ _ Hscan eq_refl Hd) as (x' & Hx').
      exists x'. simpl. now rewrite Hc, Hx'.
    + intros ->. discriminate.
    + now apply N.ltb_ge.
    + intros ->. discriminate.
  - injection Hspan as <- <- <-.
    rewrite scan_string_plain in Hscan.
    + apply push_Some in Hscan as (str' & Hscan & ->).
      exists str'. simpl. now rewrite Hc.
    + destruct Hd as [->| ->]; intros E; inversion E.
    + destruct Hd as [->| ->]; reflexivity.
    + destruct Hd as [->| ->]; intros E; inversion E.
Qed.

Lemma has_comma_closer_cons (c : N) (s : pystr) :
  has_comma_closer (c :: s) = false ->
  match_comma (c :: s) = None /\ has_comma_closer s = false.
Proof.
  change (has_comma_closer (c :: s))
    with (match match_comma (c :: s) with
          | Some _ => true
          | None => has_comma_closer s
          end).
  destruct (match_comma (c :: s)); [discriminate|auto].
Qed.

(** The text of a string literal after its opening quote: it holds no
    newline, and a match of the second pattern in it is a match in the
    decoded string. *)
Lemma scan_string_raw (n : nat) :
  forall t str r,
    (length t < n)%nat ->
    scan_string t = Some (str, r) ->
    exists raw, t = raw ++ r /\ raw <> [] /\ (c_newline ∉ raw)
                /\ (has_comma_closer str = false -> no_comma_match raw r).
Proof.
  induction n as [|n IH]; intros t str r Hlen Hscan; [lia|].
  destruct (scan_string_step t)
    as [Hnone|[(r0 & -> & E)|(p & x & t' & -> & Hp & Hs & E)]].
  - congruence.
  - rewrite E in Hscan. injection Hscan as <- <-.
    exists [c_dquote]. split; [reflexivity|]. split; [discriminate|]. split.
    + apply not_elem_of_cons. split; [discriminate|apply not_elem_of_nil].
    + intros _. apply no_comma_match_cons; [|apply no_comma_match_nil].
      now apply match_comma_other.
  - rewrite E in Hscan. apply push_Some in Hscan as (str' & Hscan & ->).
    assert (Hlen' : (length t' < n)%nat).
    { rewrite length_app in Hlen. destruct p; [contradiction|simpl in Hlen; lia]. }
    destruct (IH _ _ _ Hlen' Hscan) as (raw & -> & Hraw & Hnl & Hcm).
    exists (p ++ raw). split; [now rewrite app_assoc|].
    split; [destruct p; [contradiction|discriminate]|]. split.
    + apply not_elem_of_app. split; [|assumption].
      destruct Hs as [Hs|[-> _]]; [now apply safe_no_newline|].
      apply not_elem_of_cons. split; [discriminate|apply not_elem_of_nil].
    + intros Hclean. apply has_comma_closer_cons in Hclean as [Hhead Hclean].
      destruct Hs as [Hs|[-> ->]]; [apply no_comma_match_safe; auto|].
      simpl. apply no_comma_match_cons; [|auto].
      destruct (match_comma (c_comma :: (raw ++ r))) eqn:Hm; [exfalso|reflexivity].
      assert (Hm' : match_comma (c_comma :: raw ++ r) <> None) by congruence.
      apply match_comma_spec in Hm' as (w & d & x & Hspan & Hd).
      destruct (scan_string_closer _ _ _ _ _ _ Hscan Hspan Hd) as (x' & Hx').
      now apply (match_comma_hit _ _ _ _ Hx' Hd).
Qed.

End Strings2.

Section Numbers.
Import Py Json.

Lemma starts_with_split (p s : pystr) :
  starts_with p s = true -> s = p ++ drop (length p) s.
Proof.
  revert s; induction p as [|a p IH]; intros [|b s] H; simpl in *;
    try reflexivity; try discriminate.
  apply andb_true_iff in H as [Hab H]. apply N.eqb_eq in Hab as ->.
  f_equal. now apply IH.
Qed.

Lemma span_isdigit_atom (s a b : pystr) :
  span isdigit s = (a, b) -> s = a ++ b /\ forallb atom_char a = true.
Proof.
  intros H. apply span_spec in H as (-> & Ha & _). split; [reflexivity|].
  apply forallb_forall. intros c Hc.
  apply isdigit_atom_char. eapply forallb_forall in Ha; eauto.
Qed.

Lemma scan_integer_split (s : pystr) (neg : bool) (ds r : pystr) :
  scan_integer s = Some (neg, ds, r) ->
  exists l, s = l ++ r /\ l <> [] /\ forallb atom_char l = true.
Proof.
  unfold scan_integer.
  assert (Hdigits : forall (neg' : bool) (s1 : pystr),
    match s1 with
    | [] => None
    | c :: t =>
      if (c =? 48)%N then Some (neg', [c], t)
      else if isdigit c
           then let '(ds, r) := span isdigit t in Some (neg', c :: ds, r)
           else None
    end = Some (neg, ds, r) ->
    exists l, s1 = l ++ r /\ l <> [] /\ forallb atom_char l = true).
  { intros neg' [|c t]; [discriminate|].
    destruct (N.eqb_spec c 48) as [->|_].
    - intros [= <- <- <-]. exists [48%N]. repeat split. discriminate.
    - destruct (isdigit c) eqn:Hc; [|discriminate].
      destruct (span isdigit t) as [ds' r'] eqn:Hsp. intros [= <- <- <-].
      apply span_isdigit_atom in Hsp as (-> & Hds).
      exists (c :: ds'). repeat split; [discriminate|].
      simpl. now rewrite (isdigit_atom_char _ Hc), Hds. }
  destruct s as [|c t]; [discriminate|].
  destruct (N.eqb_spec c 45) as [->|_].
  - intros H. apply (Hdigits true t) in H as (l & -> & Hl & Hall).
    exists (45%N :: l). repeat split; [discriminate|]. simpl. assumption.
  - intros H. now apply (Hdigits false (c :: t)) in H.
Qed.

Lemma scan_frac_split (s frac r : pystr) :
  scan_frac s = (frac, r) -> s = frac ++ r /\ forallb atom_char frac = true.
Proof.
  unfold scan_frac. destruct s as [|c t]; [intros [= <- <-]; auto|].
  destruct (N.eqb_spec c 46) as [->|_]; [|intros [= <- <-]; auto].
  destruct (span isdigit t) as [[|d ds] r'] eqn:Hsp; intros [= <- <-]; [auto|].
  apply span_isdigit_atom in Hsp as (-> & Hds). split; [reflexivity|].
  simpl in *. assumption.
Qed.

Lemma scan_exp_split (s exp r : pystr) :
  scan_exp s = (exp, r) -> s = exp ++ r /\ forallb atom_char exp = true.
Proof.
  unfold scan_exp. destruct s as [|c t]; [intros [= <- <-]; auto|].
  destruct ((c =? 101) || (c =? 69))%N eqn:Hc; [|intros [= <- <-]; auto].
  assert (Hca : atom_char c = true).
  { apply orb_true_iff in Hc as [Hc|Hc]; apply N.eqb_eq in Hc as ->; reflexivity. }
  assert (Hsign : exists sign t1,
    match t with
    | [] => ([], t)
    | d :: t' => if ((d =? 43) || (d =? 45))%N then ([d], t') else ([], t)
    end = (sign, t1) /\ t = sign ++ t1 /\ forallb atom_char sign = true).
  { destruct t as [|d t']; [exists [], []; auto|].
    destruct ((d =? 43) || (d =? 45))%N eqn:Hd; [|exists [], (d :: t'); auto].
    exists [d], t'. repeat split. simpl.
    apply orb_true_iff in Hd as [Hd|Hd]; apply N.eqb_eq in Hd as ->; reflexivity. }
  destruct Hsign as (sign & t1 & -> & -> & Hs).
  destruct (span isdigit t1) as [[|d ds] r'] eqn:Hsp; intros [= <- <-]; [auto|].
  apply span_isdigit_atom in Hsp as (-> & Hds). split.
  - simpl. now rewrite <- app_assoc.
  - simpl. rewrite Hca, forallb_app, Hs. simpl in *. assumption.
Qed.

Lemma scan_number_split (s : pystr) (v : pyval) (r : pystr) :
  scan_number s = Some (v, r) ->
  exists l, s = l ++ r /\ l <> [] /\ forallb atom_char l = true.
Proof.
  unfold scan_number.
  destruct (scan_integer s) as [[[neg ds] r0]|] eqn:Hi; simpl; [|discriminate].
  apply scan_integer_split in Hi as (l & -> & Hl & Hall).
  destruct (scan_frac r0) as [frac r1] eqn:Hf.
  apply scan_frac_split in Hf as (-> & Hfrac).
  destruct (scan_exp r1) as [exp r2] eqn:He.
  apply scan_exp_split in He as (-> & Hexp).
  intros Hv. assert (r = r2) as -> by (destruct frac, exp; now injection Hv).
  exists (l ++ frac ++ exp). split; [now rewrite <- !app_assoc|]. split.
  - destruct l; [contradiction|discriminate].
  - now rewrite !forallb_app, Hall, Hfrac, Hexp.
Qed.

End Numbers.

Section Lexer.
Import Py Json Re.

Lemma lex_unfold (f : nat) (c : N) (t : pystr) :
  lex (S f) (c :: t) =
  if is_ws c then lex f t
  else
    match punct c with
    | Some tok => cons tok <$> lex f t
    | None =>
      if (c =? c_dquote)%N then
        '(str, r) ← scan_string t; cons (TStr str) <$> lex f r
      else if starts_with (lit "null") (c :: t) then
        cons (TAtom PNone) <$> lex f (drop 4 (c :: t))
      else if starts_with (lit "true") (c :: t) then
        cons (TAtom (PBool true)) <$> lex f (drop 4 (c :: t))
      else if starts_with (lit "false") (c :: t) then
        cons (TAtom (PBool false)) <$> lex f (drop 5 (c :: t))
      else
        match scan_number (c :: t) with
        | Some (v, r) => cons (TAtom v) <$> lex f r
        | None =>
          if starts_with (lit "NaN") (c :: t) then
            cons (TAtom (PFloat (lit "NaN"))) <$> lex f (drop 3 (c :: t))
          else if starts_with (lit "Infinity") (c :: t) then
            cons (TAtom (PFloat (lit "Infinity"))) <$> lex f (drop 8 (c :: t))
          else if starts_with (lit "-Infinity") (c :: t) then
            cons (TAtom (PFloat (lit "-Infinity"))) <$> lex f (drop 9 (c :: t))
          else None
        end
    end.
Proof.
  unfold punct.
  change (lex (S f) (c :: t)) with
    (if is_ws c then lex f t
     else if (c =? c_lbrace)%N then cons TLBrace <$> lex f t
     else if (c =? c_rbrace)%N then cons TRBrace <$> lex f t
     else if (c =? c_lbracket)%N then cons TLBracket <$> lex f t
     else if (c =? c_rbracket)%N then cons TRBracket <$> lex f t
     else if (c =? c_colon)%N then cons TColon <$> lex f t
     else if (c =? c_comma)%N then cons TComma <$> lex f t
     else if (c =? c_dquote)%N then
       '(str, r) ← scan_string t; cons (TStr str) <$> lex f r
     else if starts_with (lit "null") (c :: t) then
       cons (TAtom PNone) <$> lex f (drop 4 (c :: t))
     else if starts_with (lit "true") (c :: t) then
       cons (TAtom (PBool true)) <$> lex f (drop 4 (c :: t))
     else if starts_with (lit "false") (c :: t) then
       cons (TAtom (PBool false)) <$> lex f (drop 5 (c :: t))
     else
       match scan_number (c :: t) with
       | Some (v, r) => cons (TAtom v) <$> lex f r
       | None =>
         if starts_with (lit "NaN") (c :: t) then
           cons (TAtom (PFloat (lit "NaN"))) <$> lex f (drop 3 (c :: t))
         else if starts_with (lit "Infinity") (c :: t) then
           cons (TAtom (PFloat (lit "Infinity"))) <$> lex f (drop 8 (c :: t))
         else if starts_with (lit "-Infinity") (c :: t) then
           cons (TAtom (PFloat (lit "-Infinity"))) <$> lex f (drop 9 (c :: t))
         else None
       end).
  destruct (is_ws c); [reflexivity|].
  repeat match goal with |- context [(c =? ?k)%N] =>
    destruct (c =? k)%N; [reflexivity|] end.
  reflexivity.
Qed.

Lemma keyword_lexeme (f : nat) (kw s : pystr) (v : pyval) (ts : list token) :
  kw <> [] -> forallb atom_char kw = true ->
  starts_with kw s = true ->
  cons (TAtom v) <$> lex f (drop (length kw) s) = Some ts ->
  exists tok l r ts',
    s = l ++ r /\ ts = tok :: ts' /\ lex f r = Some ts' /\ lexeme tok l r.
Proof.
  intros Hne Hall Hsw Hlex. apply fmap_Some in Hlex as (ts' & Hts' & ->).
  exists (TAtom v), kw, (drop (length kw) s), ts'.
  split; [now apply starts_with_split|]. repeat split; [assumption|].
  now constructor.
Qed.

(** One step of the lexer: white space, or a token and its lexeme. *)
Lemma lex_inv (f : nat) (c : N) (t : pystr) (ts : list token) :
  lex (S f) (c :: t) = Some ts ->
  (is_ws c = true /\ lex f t = Some ts)
  \/ (is_ws c = false
      /\ exists tok l r ts',
           c :: t = l ++ r /\ ts = tok :: ts'
           /\ lex f r = Some ts' /\ lexeme tok l r).
Proof.
  rewrite lex_unfold. destruct (is_ws c) eqn:Hws; [now left|right].
  split; [reflexivity|].
  destruct (punct c) as [tok|] eqn:Hp.
  { apply fmap_Some in H as (ts' & Hts' & ->).
    exists tok, [c], t, ts'. repeat split; [assumption|]. now constructor. }
  destruct (N.eqb_spec c c_dquote) as [->|_].
  { destruct (scan_string t) as [[str r]|] eqn:Hscan; simpl in H; [|discriminate].
    apply fmap_Some in H as (ts' & Hts' & ->).
    destruct (scan_string_raw (S (length t)) t str r (Nat.lt_succ_diag_r _) Hscan)
      as (raw & -> & _ & Hnl & Hcm).
    exists (TStr str), (c_dquote :: raw), r, ts'.
    repeat split; [assumption|]. now constructor. }
  destruct (starts_with (lit "null") (c :: t)) eqn:Hnull.
  { eapply (keyword_lexeme f (lit "null")); eauto; try discriminate; reflexivity. }
  destruct (starts_with (lit "true") (c :: t)) eqn:Htrue.
  { eapply (keyword_lexeme f (lit "true")); eauto; try discriminate; reflexivity. }
  destruct (starts_with (lit "false") (c :: t)) eqn:Hfalse.
  { eapply (keyword_lexeme f (lit "false")); eauto; try discriminate; reflexivity. }
  destruct (scan_number (c :: t)) as [[v r]|] eqn:Hnum.
  { apply fmap_Some in H as (ts' & Hts' & ->).
    apply scan_number_split in Hnum as (l & E & Hl & Hall).
    exists (TAtom v), l, r, ts'. repeat split; try assumption. now constructor. }
  destruct (starts_with (lit "NaN") (c :: t)) eqn:Hnan.
  { eapply (keyword_lexeme f (lit "NaN")); eauto; try discriminate; reflexivity. }
  destruct (starts_with (lit "Infinity") (c :: t)) eqn:Hinf.
  { eapply (keyword_lexeme f (lit "Infinity")); eauto; try discriminate; reflexivity. }
  destruct (starts_with (lit "-Infinity") (c :: t)) eqn:Hninf.
  { eapply (keyword_lexeme f (lit "-Infinity")); eauto; try discriminate; reflexivity. }
  discriminate.
Qed.

Lemma punct_cases (c : N) (tok : token) :
  punct c = Some tok ->
  (c = c_lbrace /\ tok = TLBrace) \/ (c = c_rbrace /\ tok = TRBrace)
  \/ (c = c_lbracket /\ tok = TLBracket) \/ (c = c_rbracket /\ tok = TRBracket)
  \/ (c = c_colon /\ tok = TColon) \/ (c = c_comma /\ tok = TComma).
Proof.
  unfold punct.
  repeat match goal with |- context [(c =? ?k)%N] =>
    destruct (N.eqb_spec c k) as [->|?]; [intros [= <-]; tauto|] end.
  discriminate.
Qed.

Lemma atom_head (c : N) (l : pystr) :
  forallb atom_char (c :: l) = true -> atom_char c = true.
Proof. simpl. now intros [? _]%andb_true_iff. Qed.

(** The first character of a lexeme tells the kind of the token. *)
Lemma lexeme_head (tok : token) (c : N) (l r : pystr) :
  lexeme tok (c :: l) r ->
  isspace c = false
  /\ (isword c = true -> exists v, tok = TAtom v)
  /\ (c = c_colon -> tok = TColon)
  /\ (c = c_rbrace -> tok = TRBrace)
  /\ (c = c_rbracket -> tok = TRBracket).
Proof.
  inversion 1 as [c' tok' r' Hp|str raw r' Hnl Hcm|v l' r' Hne Hall]; subst.
  - apply punct_cases in Hp
      as [[-> ->]|[[-> ->]|[[-> ->]|[[-> ->]|[[-> ->]| [-> ->]]]]]];
      repeat split; try reflexivity; intros E; try discriminate E;
      vm_compute in E; discriminate E.
  - repeat split; try reflexivity; intros E; vm_compute in E; discriminate E.
  - apply atom_head in Hall. repeat split.
    + now apply atom_char_not_space.
    + eauto.
    + intros ->. discriminate.
    + intros ->. discriminate.
    + intros ->. discriminate.
Qed.

Lemma atom_chars_safe (l : pystr) :
  forallb atom_char l = true -> forallb safe_char l = true.
Proof.
  induction l as [|c l IH]; [reflexivity|]. simpl.
  intros [Hc Hl]%andb_true_iff. rewrite (IH Hl), andb_true_r.
  unfold safe_char.
  destruct (N.eqb_spec c c_comma) as [->|_]; [discriminate|].
  destruct (N.eqb_spec c c_newline) as [->|_]; [discriminate|]. reflexivity.
Qed.

Lemma lexeme_nonempty (tok : token) (l r : pystr) : lexeme tok l r -> l <> [].
Proof. inversion 1; subst; [discriminate|discriminate|assumption]. Qed.

Lemma lexeme_no_newline (tok : token) (l r : pystr) :
  lexeme tok l r -> c_newline ∉ l.
Proof.
  inversion 1 as [c' tok' r' Hp|str raw r' Hnl Hcm|v l' r' Hne Hall]; subst.
  - apply not_elem_of_cons. split; [|apply not_elem_of_nil].
    intros <-. discriminate.
  - apply not_elem_of_cons. split; [discriminate|assumption].
  - now apply safe_no_newline, atom_chars_safe.
Qed.

Lemma lexeme_commas (tok : token) (l r : pystr) :
  lexeme tok l r -> tok <> TComma -> clean_token tok = true ->
  no_comma_match l r.
Proof.
  inversion 1 as [c' tok' r' Hp|str raw r' Hnl Hcm|v l' r' Hne Hall]; subst;
    intros Htok Hclean.
  - apply no_comma_match_cons; [|apply no_comma_match_nil].
    apply match_comma_other. intros ->. apply Htok.
    unfold punct in Hp. simpl in Hp. congruence.
  - apply no_comma_match_cons; [now apply match_comma_other|].
    apply Hcm. simpl in Hclean. now apply negb_true_iff in Hclean.
  - rewrite <- (app_nil_r l). apply no_comma_match_safe;
      [now apply atom_chars_safe|apply no_comma_match_nil].
Qed.

Lemma lexeme_atom_chars (v : pyval) (l r : pystr) :
  lexeme (TAtom v) l r -> forallb atom_char l = true.
Proof.
  inversion 1 as [c' tok' r' Hp| |]; subst; [|assumption].
  apply punct_cases in Hp
    as [[_ [=]]|[[_ [=]]|[[_ [=]]|[[_ [=]]|[[_ [=]]| [_ [=]]]]]]].
Qed.

Lemma lexeme_comma (l r : pystr) : lexeme TComma l r -> l = [c_comma].
Proof.
  inversion 1 as [c' tok' r' Hp| |]; subst.
  apply punct_cases in Hp
    as [[_ [=]]|[[_ [=]]|[[_ [=]]|[[_ [=]]|[[_ [=]]| [-> _]]]]]]. reflexivity.
Qed.

(** The lexer reads the same tokens after the white space at the head of
    the text. *)
Lemma lex_skip_spaces (r : pystr) :
  forall f ts w r3,
    lex f r = Some ts -> span isspace r = (w, r3) ->
    exists f', lex f' r3 = Some ts.
Proof.
  induction r as [|c t IH]; intros f ts w r3 Hlex Hspan; simpl in Hspan.
  - injection Hspan as <- <-. eauto.
  - destruct (isspace c) eqn:Hc.
    + destruct (span isspace t) as [w' r'] eqn:Ht. injection Hspan as <- <-.
      destruct f as [|f]; [discriminate|].
      apply lex_inv in Hlex as [[_ Hlex]|[_ (tok & l & r & ts' & E & _ & _ & Hlx)]].
      * eapply IH; eauto.
      * destruct l as [|c' l]; [now apply lexeme_nonempty in Hlx|].
        injection E as <- _. apply lexeme_head in Hlx as [Hns _]. congruence.
    + injection Hspan as <- <-. eauto.
Qed.

(** The token at the head of a text that does not start with white space. *)
Lemma lex_head (f : nat) (c : N) (t : pystr) (ts : list token) :
  lex f (c :: t) = Some ts -> isspace c = false ->
  exists tok l r ts' f',
    c :: t = (c :: l) ++ r /\ ts = tok :: ts'
    /\ lex f' r = Some ts' /\ lexeme tok (c :: l) r.
Proof.
  intros Hlex Hc. destruct f as [|f]; [discriminate|].
  apply lex_inv in Hlex as [[Hws _]|[_ (tok & l & r & ts' & E & -> & Hlex & Hlx)]].
  - apply is_ws_isspace in Hws. congruence.
  - destruct l as [|c' l]; [now apply lexeme_nonempty in Hlx|].
    injection E as <- ->. exists tok, l, r, ts', f. auto.
Qed.

End Lexer.

Section Substitutions.
Import Py Json Re.

(** *** The second pattern *)

Lemma sub_commas_pass (l r : pystr) :
  no_comma_match l r ->
  sub_commas_from 0 (l ++ r) = l ++ sub_commas_from 0 r.
Proof.
  induction l as [|c l IH]; intros Hl; [reflexivity|].
  change ((c :: l) ++ r) with (c :: l ++ r).
  change (sub_commas_from 0 (c :: l ++ r)) with
    (match match_comma (c :: l ++ r) with
     | Some (d, n) => d :: sub_commas_from (n - 1) (l ++ r)
     | None => c :: sub_commas_from 0 (l ++ r)
     end).
  rewrite (Hl [] c l eq_refl), IH; [reflexivity|].
  intros a c' b E. apply (Hl (c :: a) c' b). now rewrite E.
Qed.

(** After a comma token the text goes on, past white space, with a token
    that is not a closer. *)
Lemma comma_token_no_match (f : nat) (r : pystr) (ts : list token) :
  lex f r = Some ts ->
  (forall y, head ts = Some y -> ok_pair TComma y = true) ->
  match_comma (c_comma :: r) = None.
Proof.
  intros Hlex Hok.
  destruct (match_comma (c_comma :: r)) eqn:Hm; [exfalso|reflexivity].
  assert (Hm' : match_comma (c_comma :: r) <> None) by congruence.
  apply match_comma_spec in Hm' as (w & d & x & Hspan & Hd).
  destruct (lex_skip_spaces _ _ _ _ _ Hlex Hspan) as (f' & Hlex').
  assert (Hns : isspace d = false) by (destruct Hd as [->| ->]; reflexivity).
  destruct (lex_head _ _ _ _ Hlex' Hns)
    as (tok & l & r' & ts' & f'' & _ & -> & _ & Hlx).
  apply lexeme_head in Hlx as (_ & _ & _ & Hrb & Hrk).
  specialize (Hok tok eq_refl).
  destruct Hd as [Hd|Hd]; [rewrite (Hrb Hd) in Hok|rewrite (Hrk Hd) in Hok];
    discriminate.
Qed.

(** *** The first pattern *)

Lemma match_key_skip (s w r : pystr) :
  span isspace s = (w, r) -> match_key r = None -> match_key s = None.
Proof.
  intros Hspan. unfold match_key. rewrite Hspan.
  apply span_spec in Hspan as (_ & _ & Hr).
  rewrite (span_stop isspace r Hr).
  destruct (span isword r) as [key r2]. destruct key; [reflexivity|].
  destruct (span isspace r2) as [w2 r3]. destruct r3 as [|c r3]; [reflexivity|].
  destruct (c =? c_colon)%N; [discriminate|reflexivity].
Qed.

Lemma match_key_not_word (c : N) (t : pystr) :
  isspace c = false -> isword c = false -> match_key (c :: t) = None.
Proof.
  intros Hs Hw. unfold match_key. simpl. rewrite Hs. simpl. now rewrite Hw.
Qed.

(** The text after a run of word characters decides the match. *)
Lemma match_key_word (k rest : pystr) :
  k <> [] -> forallb isword k = true ->
  (forall c t, rest = c :: t -> isword c = false) ->
  (forall w c t, span isspace rest = (w, c :: t) -> c <> c_colon) ->
  match_key (k ++ rest) = None.
Proof.
  intros Hk Hall Hrest Hcolon. unfold match_key.
  assert (Hsp : span isspace (k ++ rest) = ([], k ++ rest)).
  { apply span_stop. intros c t E. destruct k as [|c' k]; [contradiction|].
    injection E as <- _. simpl in Hall. apply andb_true_iff in Hall as [Hc _].
    now apply isword_not_space. }
  rewrite Hsp, (span_app isword k rest Hall), (span_stop isword rest Hrest).
  simpl. rewrite app_nil_r. destruct k as [|c' k]; [contradiction|].
  destruct (span isspace rest) as [w2 [|c r3]] eqn:Hw2; [reflexivity|].
  destruct (N.eqb_spec c c_colon) as [->|_]; [|reflexivity].
  now destruct (Hcolon w2 c_colon r3 eq_refl).
Qed.

(** At the head of a text the lexer accepts, with tokens free of the
    excluded pairs, the first pattern does not match. *)
Lemma lexed_no_key (f : nat) (s : pystr) (ts : list token) :
  lex f s = Some ts -> good ts = true -> match_key s = None.
Proof.
  intros Hlex Hgood.
  destruct (span isspace s) as [w r1] eqn:Hspan.
  apply (match_key_skip _ _ _ Hspan).
  destruct (lex_skip_spaces _ _ _ _ _ Hlex Hspan) as (f1 & Hlex1).
  apply span_spec in Hspan as (_ & _ & Hr1).
  destruct r1 as [|c t]; [reflexivity|].
  pose proof (Hr1 c t eq_refl) as Hc.
  destruct (isword c) eqn:Hw; [|now apply match_key_not_word].
  destruct (lex_head _ _ _ _ Hlex1 Hc)
    as (tok & l & r & ts' & f2 & E & -> & Hlex2 & Hlx).
  apply good_cons in Hgood as [Hgood' Hpair].
  pose proof (lexeme_head _ _ _ _ Hlx) as (_ & Hatom & _).
  destruct (Hatom Hw) as [v ->].
  pose proof (lexeme_atom_chars _ _ _ Hlx) as Hall.
  rewrite E.
  destruct (forallb_split atom_char isword (c :: l) Hall)
    as [Hword|(k & x & m & Ek & Hk & Hx & Hax)].
  - apply match_key_word; [discriminate|assumption| |].
    + intros c' t' ->.
      destruct (isword c') eqn:Hw'; [exfalso|reflexivity].
      destruct (lex_head _ _ _ _ Hlex2 (isword_not_space _ Hw'))
        as (tok' & l' & r' & ts'' & f3 & _ & -> & _ & Hlx').
      apply lexeme_head in Hlx' as (_ & Hatom' & _).
      destruct (Hatom' Hw') as [v' ->]. now specialize (Hpair _ eq_refl).
    + intros w2 c' t' Hw2 ->.
      destruct (lex_skip_spaces _ _ _ _ _ Hlex2 Hw2) as (f3 & Hlex3).
      destruct (lex_head _ _ _ _ Hlex3 eq_refl)
        as (tok' & l' & r' & ts'' & f4 & _ & -> & _ & Hlx').
      apply lexeme_head in Hlx' as (_ & _ & Hcolon & _).
      rewrite (Hcolon eq_refl) in Hpair. now specialize (Hpair _ eq_refl).
  - rewrite Ek, <- app_assoc. simpl.
    destruct k as [|c' k]; [injection Ek as -> _; congruence|].
    destruct (atom_char_cases _ Hax) as [Hwx|(_ & Hsx & Hcx)]; [congruence|].
    unfold match_key.
    assert (Hsp : span isspace ((c' :: k) ++ x :: m ++ r)
                  = ([], (c' :: k) ++ x :: m ++ r)).
    { apply span_stop. intros a b [= <- _]. simpl in Hk.
      apply andb_true_iff in Hk as [Hc' _]. now apply isword_not_space. }
    rewrite Hsp, (span_cut isword _ _ _ _ Hk Hx).
    simpl. rewrite Hsx. destruct (N.eqb_spec x c_colon); [contradiction|reflexivity].
Qed.

Lemma sub_keys_pass (l r : pystr) :
  c_newline ∉ l -> sub_keys_from 0 false (l ++ r) = l ++ sub_keys_from 0 false r.
Proof.
  induction l as [|c l IH]; intros Hl; [reflexivity|].
  apply not_elem_of_cons in Hl as [Hc Hl]. simpl.
  destruct (N.eqb_spec c c_newline); [congruence|]. now rewrite IH.
Qed.

Lemma sub_keys_head (b : bool) (c : N) (t : pystr) :
  match_key (c :: t) = None ->
  sub_keys_from 0 b (c :: t) = c :: sub_keys_from 0 (c =? c_newline)%N t.
Proof.
  intros Hm.
  change (sub_keys_from 0 b (c :: t)) with
    (match (if b then match_key (c :: t) else None) with
     | Some (key, n) =>
       (c_dquote :: key) ++ c_dquote :: c_colon
         :: sub_keys_from (n - 1) (c =? c_newline)%N t
     | None => c :: sub_keys_from 0 (c =? c_newline)%N t
     end).
  rewrite Hm. now destruct b.
Qed.

(** *** Both substitutions on a valid text *)

Lemma substitutions_keep_lexed (f : nat) :
  forall s ts b,
    lex f s = Some ts -> good ts = true -> forallb clean_token ts = true ->
    sub_keys_from 0 b s = s /\ sub_commas_from 0 s = s.
Proof.
  induction f as [|f IH]; intros s ts b Hlex Hgood Hclean; [discriminate|].
  destruct s as [|c t]; [split; reflexivity|].
  pose proof (lexed_no_key _ _ _ Hlex Hgood) as Hkey.
  apply lex_inv in Hlex
    as [[Hws Hlex]|[Hws (tok & l & r & ts' & E & -> & Hlex & Hlx)]].
  - destruct (IH _ _ (c =? c_newline)%N Hlex Hgood Hclean) as [IHk IHc]. split.
    + now rewrite (sub_keys_head _ _ _ Hkey), IHk.
    + change (sub_commas_from 0 (c :: t)) with
        (match match_comma (c :: t) with
         | Some (d, n) => d :: sub_commas_from (n - 1) t
         | None => c :: sub_commas_from 0 t
         end).
      now rewrite (match_comma_other _ _ (is_ws_not_comma _ Hws)), IHc.
  - apply good_cons in Hgood as [Hgood' Hpair].
    simpl in Hclean. apply andb_true_iff in Hclean as [Hctok Hclean].
    destruct (IH _ _ false Hlex Hgood' Hclean) as [IHk IHc].
    pose proof (lexeme_no_newline _ _ _ Hlx) as Hnl.
    destruct l as [|c' l]; [now apply lexeme_nonempty in Hlx|].
    injection E as <- ->. split.
    + rewrite (sub_keys_head _ _ _ Hkey).
      apply not_elem_of_cons in Hnl as [Hc Hnl].
      destruct (N.eqb_spec c c_newline); [congruence|].
      now rewrite sub_keys_pass, IHk.
    + assert (Hd : tok = TComma \/ tok <> TComma)
        by (destruct tok; (now left) || (right; discriminate)).
      destruct Hd as [->|Htok].
      * apply lexeme_comma in Hlx. injection Hlx as -> ->. simpl app.
        change (sub_commas_from 0 (c_comma :: r)) with
          (match match_comma (c_comma :: r) with
           | Some (d, n) => d :: sub_commas_from (n - 1) r
           | None => c_comma :: sub_commas_from 0 r
           end).
        now rewrite (comma_token_no_match _ _ _ Hlex Hpair), IHc.
      * change (c :: l ++ r) with ((c :: l) ++ r).
        rewrite sub_commas_pass, IHc; [reflexivity|].
        now apply (lexeme_commas _ _ _ Hlx).
Qed.

End Substitutions.

(** C3. A text whose part from the first opening brace to the last closing
    brace is an object the decoder accepts, no string of which holds a comma
    followed by optional white space and a closing brace or bracket:
    [extract_json] returns that part unchanged, and parsing its result gives
    the object parsed directly. *)
Theorem extract_json_keeps_valid_object (pre body post : pystr) (v : pyval) :
  Py.c_lbrace ∉ pre -> Py.c_rbrace ∉ post ->
  Json.loads (Py.c_lbrace :: body ++ [Py.c_rbrace]) = inr v ->
  clean_strings (Py.c_lbrace :: body ++ [Py.c_rbrace]) = true ->
  extract_json (pre ++ (Py.c_lbrace :: body ++ [Py.c_rbrace]) ++ post)
    = inr (Py.c_lbrace :: body ++ [Py.c_rbrace])
  /\ (let* raw := extract_json (pre ++ (Py.c_lbrace :: body ++ [Py.c_rbrace]) ++ post) in
      Json.loads raw) = inr v.
Proof.
  intros Hpre Hpost Hloads Hclean.
  set (obj := Py.c_lbrace :: body ++ [Py.c_rbrace]) in *.
  assert (Hraw : extract_json (pre ++ obj ++ post) = inr obj).
  { assert (Hstart : Py.find Py.c_lbrace (pre ++ obj ++ post)
                     = Z.of_nat (length pre)).
    { unfold obj. simpl. now apply find_first. }
    assert (Hend : Py.rfind Py.c_rbrace (pre ++ obj ++ post)
                   = Z.of_nat (length (pre ++ Py.c_lbrace :: body))).
    { unfold obj.
      replace (pre ++ (Py.c_lbrace :: body ++ [Py.c_rbrace]) ++ post)
        with ((pre ++ Py.c_lbrace :: body) ++ Py.c_rbrace :: post)
        by (simpl; now rewrite <- !app_assoc).
      now apply rfind_last. }
    destruct (extract_json_cases (pre ++ obj ++ post)) as [(_ & _ & E)|([H|H] & _)].
    - rewrite E, Hstart, Hend.
      replace (Z.of_nat (length (pre ++ Py.c_lbrace :: body)) + 1)
        with (Z.of_nat (length pre + length obj))
        by (unfold obj; rewrite !length_app; simpl; rewrite length_app; simpl; lia).
      rewrite slice_middle.
      unfold Json.loads in Hloads.
      destruct (Json.decode obj) as [v'|] eqn:Hdec; [|discriminate].
      destruct (decode_good _ _ Hdec) as (ts & Hlex & Hgood).
      unfold clean_strings in Hclean. rewrite Hlex in Hclean.
      destruct (substitutions_keep_lexed _ _ _ true Hlex Hgood Hclean) as [Hk Hc].
      unfold Re.sub_keys, Re.sub_commas. now rewrite Hk, Hc.
    - exfalso. apply H. unfold obj. rewrite elem_of_app. right. apply list_elem_of_here.
    - exfalso. apply H. unfold obj. rewrite !elem_of_app. right. left.
      simpl. apply list_elem_of_further. rewrite elem_of_app. right.
      apply list_elem_of_here. }
  split; [exact Hraw|]. rewrite Hraw. exact Hloads.
Qed.

(** C3 on an object with a list and with a comma inside a string, wrapped
    in prose. *)
Lemma extract_json_keeps_valid_object_witness :
  extract_json (Examples.prose_before
                  ++ (Py.c_lbrace :: Examples.members ++ [Py.c_rbrace])
                  ++ Examples.prose_after)
    = inr (Py.c_lbrace :: Examples.members ++ [Py.c_rbrace]).
Proof.
  apply (extract_json_keeps_valid_object
           Examples.prose_before Examples.members Examples.prose_after
           (PDict [(Py.lit "a", PList [PInt 1; PInt 2]);
                   (Py.lit "b", PStr (Py.lit "x, y"))])).
  - apply (bool_decide_unpack _); vm_compute; exact I.
  - apply (bool_decide_unpack _); vm_compute; exact I.
  - vm_compute. reflexivity.
  - vm_compute. reflexivity.
Defined.

(** ** The patterns as the text of their matches *)

Section Patterns.
Import Py Re.

Lemma span_until (p : N -> bool) (a : pystr) (x : N) (rest : pystr) :
  forallb p a = true -> p x = false -> span p (a ++ x :: rest) = (a, x :: rest).
Proof.
  intros Ha Hx. rewrite span_app by assumption. simpl. rewrite Hx. simpl.
  now rewrite app_nil_r.
Qed.

Lemma isspace_not_word (c : N) : isspace c = true -> isword c = false.
Proof.
  intros Hs. destruct (isword c) eqn:Hw; [|reflexivity].
  apply isword_not_space in Hw. congruence.
Qed.

(** [match_key] succeeds exactly on the texts that start with white space,
    a word, white space and a colon, in the only way to read them so. *)
Lemma match_key_iff (s key : pystr) (n : nat) :
  match_key s = Some (key, n) <->
  exists w1 w2 rest,
    s = w1 ++ key ++ w2 ++ c_colon :: rest
    /\ forallb isspace w1 = true
    /\ key <> [] /\ forallb isword key = true
    /\ forallb isspace w2 = true
    /\ n = (length w1 + length key + length w2 + 1)%nat.
Proof.
  split.
  - unfold match_key.
    destruct (span isspace s) as [w1 r1] eqn:H1.
    destruct (span isword r1) as [k r2] eqn:H2.
    destruct k as [|c k]; [discriminate|].
    destruct (span isspace r2) as [w2 r3] eqn:H3.
    destruct r3 as [|d r3]; [discriminate|].
    destruct (N.eqb_spec d c_colon) as [->|_]; [|discriminate].
    intros [= <- <-].
    apply span_spec in H1 as (-> & Hw1 & _).
    apply span_spec in H2 as (-> & Hk & _).
    apply span_spec in H3 as (-> & Hw2 & _).
    exists w1, w2, r3. repeat split; auto; discriminate.
  - intros (w1 & w2 & rest & -> & Hw1 & Hne & Hk & Hw2 & ->).
    destruct key as [|c key]; [contradiction|].
    pose proof Hk as Hk'. simpl in Hk'. apply andb_true_iff in Hk' as [Hc _].
    unfold match_key.
    change (w1 ++ (c :: key) ++ w2 ++ c_colon :: rest)
      with (w1 ++ c :: (key ++ w2 ++ c_colon :: rest)).
    rewrite (span_until isspace w1 c _ Hw1 (isword_not_space _ Hc)).
    change (c :: key ++ w2 ++ c_colon :: rest)
      with ((c :: key) ++ w2 ++ c_colon :: rest).
    assert (Hword : span isword ((c :: key) ++ w2 ++ c_colon :: rest)
                    = (c :: key, w2 ++ c_colon :: rest)).
    { destruct w2 as [|x w2].
      - now apply span_until.
      - simpl in Hw2. apply andb_true_iff in Hw2 as [Hx _].
        apply (span_until isword (c :: key) x); [assumption|].
        now apply isspace_not_word. }
    rewrite Hword, (span_until isspace w2 c_colon rest Hw2 eq_refl).
    reflexivity.
Qed.

(** [match_comma] succeeds exactly on the texts that start with a comma,
    white space and a closing brace or bracket. *)
Lemma match_comma_iff (s : pystr) (d : N) (n : nat) :
  match_comma s = Some (d, n) <->
  exists w rest,
    s = c_comma :: w ++ d :: rest
    /\ forallb isspace w = true
    /\ (d = c_rbrace \/ d = c_rbracket)
    /\ n = (2 + length w)%nat.
Proof.
  split.
  - destruct s as [|c t]; [discriminate|]. simpl.
    destruct (N.eqb_spec c c_comma) as [->|_]; [|discriminate].
    destruct (span isspace t) as [w r] eqn:Hspan.
    destruct r as [|x r]; [discriminate|].
    destruct (N.eqb_spec x c_rbrace) as [->|_].
    + intros [= <- <-]. apply span_spec in Hspan as (-> & Hw & _).
      exists w, r. auto.
    + destruct (N.eqb_spec x c_rbracket) as [->|_]; [|discriminate].
      intros [= <- <-]. apply span_spec in Hspan as (-> & Hw & _).
      exists w, r. auto.
  - intros (w & rest & -> & Hw & Hd & ->). simpl.
    assert (Hns : isspace d = false) by (destruct Hd as [->| ->]; reflexivity).
    rewrite (span_until isspace w d rest Hw Hns).
    destruct Hd as [->| ->]; reflexivity.
Qed.

End Patterns.

(** ** What the page loop parses is a [dict] *)

Section Recovered.
Import Py Re Json.

Lemma sub_keys_brace (t : pystr) :
  sub_keys (c_lbrace :: t) = c_lbrace :: sub_keys_from 0 false t.
Proof. reflexivity. Qed.

Lemma sub_commas_brace (t : pystr) :
  sub_commas (c_lbrace :: t) = c_lbrace :: sub_commas_from 0 t.
Proof. reflexivity. Qed.

(** The text [extract_json] returns is empty or starts with the brace. *)
Lemma extract_json_head (text raw : pystr) :
  extract_json text = inr raw -> raw = [] \/ exists t, raw = c_lbrace :: t.
Proof.
  destruct (extract_json_cases text) as [(Hl & _ & E)|(_ & E)];
    rewrite E; [|discriminate].
  intros [= <-].
  apply list_elem_of_split_l in Hl as (pre & rest & -> & Hpre).
  rewrite (find_first _ _ _ Hpre).
  unfold slice, clamp_index.
  destruct (Z.ltb_spec (Z.of_nat (length pre)) 0); [lia|].
  rewrite (Z.min_l (Z.of_nat (length pre)))
    by (rewrite length_app; simpl; lia).
  rewrite Nat2Z.id, drop_app_length.
  destruct (Z.to_nat _) as [|k]; [now left|right].
  simpl take. rewrite sub_keys_brace, sub_commas_brace. eauto.
Qed.

Lemma parse_value_brace (f : nat) (ts : list token) (v : pyval) (r : list token) :
  parse_value (S f) (TLBrace :: ts) = Some (v, r) -> exists items, v = PDict items.
Proof.
  intros Hp. simpl in Hp. destruct ts as [|t' ts'].
  - destruct (parse_members f [] []) as [[d r']|]; simpl in Hp; [|discriminate].
    injection Hp as <- _. eauto.
  - destruct t';
      try (destruct (parse_members f [] _) as [[d r']|]; simpl in Hp;
           [injection Hp as <- _; eauto|discriminate]).
    injection Hp as <- _. eauto.
Qed.

Lemma decode_brace (t : pystr) (v : pyval) :
  decode (c_lbrace :: t) = Some v -> exists items, v = PDict items.
Proof.
  unfold decode. rewrite lex_unfold.
  change (is_ws c_lbrace) with false. change (punct c_lbrace) with (Some TLBrace).
  cbn iota.
  destruct (lex (length (c_lbrace :: t)) t) as [ts|]; [|discriminate].
  cbn [fmap option_fmap option_map mbind option_bind].
  destruct (parse_value (S (length (TLBrace :: ts))) (TLBrace :: ts))
    as [[v' r]|] eqn:Hp; [|discriminate].
  cbn [mbind option_bind]. destruct r; [|discriminate]. intros [= <-].
  eapply parse_value_brace; eauto.
Qed.

(** [json.loads(extract_json(response))], when it returns, returns a
    [dict]. *)
Lemma recover_returns_dict (response : pystr) (v : pyval) :
  recover response = inr v -> exists items, v = PDict items.
Proof.
  unfold recover.
  destruct (extract_json response) as [e|raw] eqn:E; simpl; [discriminate|].
  apply extract_json_head in E as [->|[t ->]]; unfold loads.
  - discriminate.
  - destruct (decode (c_lbrace :: t)) as [v'|] eqn:Hd; [|discriminate].
    intros [= <-]. eapply decode_brace; eauto.
Qed.

End Recovered.

(** ** Documents *)

Section Properties.
Context {O : Opaque} {L : Library}.

Lemma lookup_map {A B} (f : A -> B) (l : list A) (i : nat) :
  map f l !! i = f <$> l !! i.
Proof.
  revert i; induction l as [|a l IH]; intros [|i]; simpl; auto.
Qed.

Lemma elem_of_map {A B} (f : A -> B) (l : list A) (y : B) :
  y ∈ map f l <-> exists x, y = f x /\ x ∈ l.
Proof.
  induction l as [|a l IH]; simpl.
  - split; [intros Hy; inversion Hy|intros (x & _ & Hx); inversion Hx].
  - rewrite elem_of_cons, IH. split.
    + intros [->|(x & -> & Hx)]; [exists a|exists x]; rewrite elem_of_cons; auto.
    + intros (x & -> & [->|Hx]%elem_of_cons); eauto.
Qed.

(** *** The field inventory *)

Lemma elem_of_fields_from (d : Field) (n : Z) (pages : list Page) :
  d ∈ fields_from n pages <->
  exists i p w, pages !! i = Some p /\ w ∈ page_widgets p
                /\ d = field_of (n + Z.of_nat i) w.
Proof.
  revert n; induction pages as [|p ps IH]; intros n; simpl.
  - split; [intros Hd; inversion Hd|intros (i & q & w & Hi & _)].
    now rewrite lookup_nil in Hi.
  - rewrite elem_of_app, elem_of_map, IH. split.
    + intros [(w & -> & Hw)|(i & q & w & Hi & Hw & ->)].
      * exists 0%nat, p, w. repeat split; auto. f_equal. lia.
      * exists (S i), q, w. repeat split; auto. f_equal. lia.
    + intros ([|i] & q & w & Hi & Hw & ->); simpl in Hi.
      * injection Hi as <-. left. exists w. split; auto. f_equal. lia.
      * right. exists i, q, w. repeat split; auto. f_equal. lia.
Qed.

(** C6. In a document where no field name occurs on two pages, two
    descriptors of the inventory with the same name have the same page
    number. *)
Theorem inventory_pages_agree_on_page_disjoint_names
    (pdf_bytes : bytes) (doc : Document) :
  fitz_open pdf_bytes = inr doc ->
  page_disjoint_names doc ->
  exists fields,
    extract_fields_with_positions pdf_bytes = inr fields
    /\ forall d1 d2, d1 ∈ fields -> d2 ∈ fields ->
         f_name d1 = f_name d2 -> f_page d1 = f_page d2.
Proof.
  intros Hopen Hdis. unfold extract_fields_with_positions. rewrite Hopen. simpl.
  eexists. split; [reflexivity|].
  intros d1 d2 (i & p & w1 & Hi & Hw1 & ->)%elem_of_fields_from
               (j & q & w2 & Hj & Hw2 & ->)%elem_of_fields_from Hname.
  simpl in *. f_equal. f_equal. eapply Hdis; eauto.
Qed.

(** *** The fill loop *)

Lemma widget_at_fill (m : gmap pystr pyval) (doc : Document) (i j : nat) :
  widget_at (fill_document m doc) i j = fill_widget m <$> widget_at doc i j.
Proof.
  unfold widget_at, fill_document. rewrite lookup_map.
  destruct (doc !! i) as [p|]; simpl; [|reflexivity].
  apply lookup_map.
Qed.

(** C7. A widget whose field name is not a key of the map is the same
    widget, with the same value, in the filled document. *)
Theorem fill_leaves_unmapped_fields
    (m : gmap pystr pyval) (doc : Document) (i j : nat) (w : Widget) :
  widget_at doc i j = Some w ->
  m !! field_name w = None ->
  widget_at (fill_document m doc) i j = Some w.
Proof.
  intros Hw Hm. rewrite widget_at_fill, Hw. simpl.
  unfold fill_widget. now rewrite Hm.
Qed.

(** C8. For a widget whose field name is a key of the map: a checkbox
    mapped to [True] gets the value "Yes" and mapped to [False] the value
    "Off"; a text field mapped to a string gets exactly that string. *)
Theorem fill_writes_by_field_type
    (m : gmap pystr pyval) (doc : Document) (i j : nat) (w : Widget) (val : pyval) :
  widget_at doc i j = Some w ->
  m !! field_name w = Some val ->
  exists w',
    widget_at (fill_document m doc) i j = Some w'
    /\ field_name w' = field_name w /\ field_type w' = field_type w
    /\ (field_type w = PDF_WIDGET_TYPE_CHECKBOX -> val = PBool true ->
        field_value w' = PStr (Py.lit "Yes"))
    /\ (field_type w = PDF_WIDGET_TYPE_CHECKBOX -> val = PBool false ->
        field_value w' = PStr (Py.lit "Off"))
    /\ (field_type w = PDF_WIDGET_TYPE_TEXT -> forall s, val = PStr s ->
        field_value w' = PStr s).
Proof.
  intros Hw Hm. rewrite widget_at_fill, Hw. simpl. eexists. split; [reflexivity|].
  unfold fill_widget. rewrite Hm.
  repeat split.
  - now destruct (is_checkbox (field_type w)).
  - now destruct (is_checkbox (field_type w)).
  - intros Hty ->. unfold set_field_value, updated_value. now rewrite Hty.
  - intros Hty ->. unfold set_field_value, updated_value. now rewrite Hty.
  - intros Hty s ->. unfold set_field_value, updated_value. now rewrite Hty.
Qed.


(** *** The page isolator *)

Lemma insert_pdf_single (src : Document) (page_no : Z) (page : Page) :
  1 <= page_no ->
  src !! Z.to_nat (page_no - 1) = Some page ->
  insert_pdf [] src (page_no - 1) (page_no - 1) = [page].
Proof.
  intros Hpos Hpage. unfold insert_pdf. simpl.
  pose proof (lookup_lt_Some _ _ _ Hpage) as Hlt.
  destruct (Z.ltb_spec (page_no - 1) 0); [lia|].
  rewrite Z.min_l by lia.
  replace (Z.to_nat (page_no - 1 - (page_no - 1) + 1)) with 1%nat by lia.
  rewrite (drop_S _ _ _ Hpage). reflexivity.
Qed.

Lemma doc_getitem_valid (src : Document) (page_no : Z) (page : Page) :
  1 <= page_no ->
  src !! Z.to_nat (page_no - 1) = Some page ->
  doc_getitem src (page_no - 1) = inr page.
Proof.
  intros Hpos Hpage. unfold doc_getitem.
  pose proof (lookup_lt_Some _ _ _ Hpage) as Hlt.
  destruct (Z.leb_spec (Z.of_nat (length src)) (page_no - 1)); [lia|].
  destruct (Z.ltb_spec (page_no - 1) 0); [lia|]. simpl. now rewrite Hpage.
Qed.

Lemma delete_widgets_result (src : Document) (page_no : Z) (ws : list Widget) :
  forall (i : nat) (p p' : Page),
    delete_widgets src page_no i ws p = inr p' ->
    p' = mkPage (page_rect p) (page_contents p) (drop (length ws) (page_widgets p)).
Proof.
  induction ws as [|w ws IH]; intros i p p' Hrun; simpl in *.
  - injection Hrun as <-. rewrite drop_0. now destruct p.
  - destruct (structural_fault src page_no (StepDeleteWidget i)); simpl in Hrun;
      [discriminate|].
    apply IH in Hrun as ->. simpl. f_equal.
    destruct (page_widgets p); simpl; [now rewrite drop_nil|reflexivity].
Qed.

Lemma copy_page_result (src : Document) (page_no : Z) (page : Page) (part : Part) :
  1 <= page_no ->
  src !! Z.to_nat (page_no - 1) = Some page ->
  copy_page src page_no = inr part ->
  part = mkPart (save_bytes [stripped_page page]) pdf_mime.
Proof.
  intros Hpos Hpage. unfold copy_page.
  destruct (structural_fault src page_no StepInsertPdf); simpl; [discriminate|].
  rewrite (insert_pdf_single _ _ _ Hpos Hpage). simpl.
  destruct (structural_fault src page_no StepWidgets); simpl; [discriminate|].
  destruct (delete_widgets src page_no 0 (page_widgets page) page) as [e|p] eqn:Hdel;
    simpl; [discriminate|].
  apply delete_widgets_result in Hdel as ->. rewrite drop_all.
  destruct (structural_fault src page_no StepSave); simpl; [discriminate|].
  intros [= <-]. reflexivity.
Qed.

Lemma raster_page_result (src : Document) (page_no : Z) (page : Page) :
  1 <= page_no ->
  src !! Z.to_nat (page_no - 1) = Some page ->
  (forall step, raster_fault src page_no step = None) ->
  raster_page src page_no = inr (mkPart (save_bytes [image_page page]) pdf_mime).
Proof.
  intros Hpos Hpage Hok. unfold raster_page.
  rewrite (doc_getitem_valid _ _ _ Hpos Hpage), !Hok. reflexivity.
Qed.

(** C5. On a document that opens, for one of its pages, and when the
    rasterising calls succeed, [make_page_part] returns a one-page document:
    when the copy raises, whatever the exception, the exception is dropped
    and the document is the picture of the page on a page of the same width
    and height; otherwise it is the page without its widgets. *)
Theorem make_page_part_returns_single_page
    (pdf_bytes : bytes) (src : Document) (page_no : Z) (page : Page) :
  fitz_open pdf_bytes = inr src ->
  1 <= page_no ->
  src !! Z.to_nat (page_no - 1) = Some page ->
  (forall step, raster_fault src page_no step = None) ->
  ((exists e, copy_page src page_no = inl e)
   /\ make_page_part pdf_bytes page_no
      = inr (mkPart (save_bytes [image_page page]) pdf_mime))
  \/ ((exists part, copy_page src page_no = inr part)
      /\ make_page_part pdf_bytes page_no
         = inr (mkPart (save_bytes [stripped_page page]) pdf_mime)).
Proof.
  intros Hopen Hpos Hpage Hok. unfold make_page_part. rewrite Hopen. simpl.
  destruct (copy_page src page_no) as [e|part] eqn:Hcopy; simpl.
  - left. split; [eauto|]. now apply raster_page_result.
  - right. split; [eauto|]. f_equal. eapply copy_page_result; eauto.
Qed.

(** *** The page loop *)

Lemma page_loop_app (pa_bytes : bytes) (patient_info : pyval)
    (l1 l2 : list (Z * list PageField)) :
  forall st,
    page_loop pa_bytes patient_info st (l1 ++ l2)
    = let* st1 := page_loop pa_bytes patient_info st l1 in
      page_loop pa_bytes patient_info st1 l2.
Proof.
  induction l1 as [|item l1 IH]; intros st; simpl; [reflexivity|].
  destruct (page_step pa_bytes patient_info st item); simpl; auto.
Qed.

Lemma page_step_malformed (pa_bytes : bytes) (patient_info : pyval)
    (st : gmap Z pyval * gmap pystr pyval) (item : Z * list PageField) (e : exn) :
  malformed_page_response pa_bytes patient_info item e ->
  page_step pa_bytes patient_info st item = inl e.
Proof.
  destruct st as [fc fm], item as [page_no page_fields].
  intros (part & Hpart & Hbad). simpl in *. unfold page_step. rewrite Hpart. simpl.
  unfold recover in Hbad.
  destruct Hbad as [(resp & Hresp & Hrec)|(resp & ctx & resp' & Hresp & Hrec & Hresp' & Hrec')].
  - rewrite Hresp. simpl.
    destruct (extract_json resp) as [e'|raw]; simpl in *; [congruence|].
    now rewrite Hrec.
  - rewrite Hresp. simpl.
    destruct (extract_json resp) as [e'|raw]; simpl in *; [congruence|].
    rewrite Hrec. simpl. rewrite Hresp'. simpl.
    destruct (extract_json resp') as [e'|raw']; simpl in *; [congruence|].
    now rewrite Hrec'.
Qed.

(** C1. When a page's response fails recovery or parsing, in the
    annotation step or in the mapping step, the exception leaves the page
    loop and the handler: the run ends with that exception, the pages after
    it are not processed and no filled form is produced. *)
Theorem malformed_page_response_aborts_run
    (pa_bytes ref_bytes : bytes) (patient_info : pyval) (fields : list Field)
    (done rest : list (Z * list PageField)) (item : Z * list PageField)
    (st1 : gmap Z pyval * gmap pystr pyval) (e : exn) :
  extract_patient_info ref_bytes pa_bytes = inr patient_info ->
  extract_fields_with_positions pa_bytes = inr fields ->
  sorted_items (group_by_page fields) = done ++ item :: rest ->
  page_loop pa_bytes patient_info (∅, ∅) done = inr st1 ->
  malformed_page_response pa_bytes patient_info item e ->
  run (Some pa_bytes) (Some ref_bytes) = Uncaught e.
Proof.
  intros Hinfo Hfields Hitems Hdone Hbad.
  unfold run. rewrite Hinfo. unfold process. rewrite Hfields. simpl.
  rewrite Hitems, page_loop_app, Hdone. simpl.
  now rewrite (page_step_malformed _ _ _ _ _ Hbad).
Qed.

End Properties.

(** ** The properties on the concrete inputs *)

Section Instances.
Import Examples.

(** The end-to-end scenario: the run ends with the download of the form
    in which [T1] holds "Jane" and [CB1] holds "Yes". *)
Example scenario_run :
  run (L := scenario_library) (Some 0%nat) (Some 1%nat)
    = Download
        (save_bytes (Library := scenario_library)
           (fill_document (L := scenario_library) scenario_mapping two_page_form))
        "filled_PA.pdf" pdf_mime
  /\ map (fun p => map (fun w => (field_name w, field_value w)) (page_widgets p))
         (fill_document (L := scenario_library) scenario_mapping two_page_form)
     = [ [(Py.lit "T1", PStr (Py.lit "Jane"))];
         [(Py.lit "CB1", PStr (Py.lit "Yes"))] ].
Proof. split; vm_compute; reflexivity. Qed.

(** C1 fails when the annotation of page 1 is prose: the run ends with the
    [ValueError] of [extract_json]; page 2 is not processed and nothing is
    offered for download. *)
Lemma prose_on_page_1_aborts_run :
  run (L := prose_library) (Some 0%nat) (Some 1%nat)
    = Uncaught (ValueError "No JSON object found")
  /\ ~ (exists data name mime,
          run (L := prose_library) (Some 0%nat) (Some 1%nat)
            = Download data name mime).
Proof.
  assert (E : run (L := prose_library) (Some 0%nat) (Some 1%nat)
              = Uncaught (ValueError "No JSON object found"))
    by (vm_compute; reflexivity).
  split; [exact E|]. intros (data & name & mime & E'). rewrite E in E'. discriminate.
Qed.

(** C1 as amended, on the same run. *)
Lemma malformed_page_response_aborts_run_witness :
  run (L := prose_library) (Some 0%nat) (Some 1%nat)
    = Uncaught (ValueError "No JSON object found").
Proof.
  eapply (malformed_page_response_aborts_run (L := prose_library)
            0%nat 1%nat _ _ [] _ _ (∅, ∅)).
  - vm_compute. reflexivity.
  - vm_compute. reflexivity.
  - vm_compute. reflexivity.
  - reflexivity.
  - eexists. split; [vm_compute; reflexivity|].
    left. eexists. split; [vm_compute; reflexivity|].
    vm_compute. reflexivity.
Defined.

(** C5 when the copy of page 1 fails while its widgets are removed: the
    part is the picture of the page. *)
Lemma make_page_part_returns_single_page_witness :
  make_page_part (L := faulty_copy_library) 0%nat 1
    = inr (mkPart (save_bytes (Library := faulty_copy_library)
                     [image_page (L := faulty_copy_library) page_with_T1])
                  pdf_mime).
Proof.
  destruct (make_page_part_returns_single_page (L := faulty_copy_library)
              0%nat two_page_form 1 page_with_T1
              eq_refl ltac:(lia) eq_refl (fun _ => eq_refl))
    as [[_ E]|[[part Hpart] _]].
  - exact E.
  - vm_compute in Hpart. discriminate.
Defined.

(** C6 fails with two widgets of the field [T1], one on each page: two
    descriptors with the same name and the page numbers 1 and 2. *)
Lemma inventory_repeated_name_two_pages :
  exists fields d1 d2,
    extract_fields_with_positions (L := repeated_name_library) 0%nat = inr fields
    /\ d1 ∈ fields /\ d2 ∈ fields
    /\ f_name d1 = f_name d2 /\ f_page d1 <> f_page d2.
Proof.
  eexists _, _, _. split; [vm_compute; reflexivity|].
  split; [apply list_elem_of_here|].
  split; [apply list_elem_of_further, list_elem_of_here|].
  split; [reflexivity|]. simpl. lia.
Qed.

Lemma two_page_form_disjoint : page_disjoint_names two_page_form.
Proof.
  intros [|[|i]] [|[|j]] p q w1 w2 Hp Hq Hw1 Hw2 Hname; simpl in *;
    try reflexivity; try discriminate.
  - injection Hp as <-. injection Hq as <-. simpl in *.
    apply list_elem_of_singleton in Hw1 as ->.
    apply list_elem_of_singleton in Hw2 as ->. discriminate.
  - injection Hp as <-. injection Hq as <-. simpl in *.
    apply list_elem_of_singleton in Hw1 as ->.
    apply list_elem_of_singleton in Hw2 as ->. discriminate.
Qed.

(** C6 as amended, on the form of the scenario. *)
Lemma inventory_pages_agree_witness :
  exists fields,
    extract_fields_with_positions (L := scenario_library) 0%nat = inr fields
    /\ forall d1 d2, d1 ∈ fields -> d2 ∈ fields ->
         f_name d1 = f_name d2 -> f_page d1 = f_page d2.
Proof.
  exact (inventory_pages_agree_on_page_disjoint_names (L := scenario_library)
           0%nat two_page_form eq_refl two_page_form_disjoint).
Defined.

(** C7: with only [T1] mapped, the checkbox [CB1] is as before. *)
Lemma fill_leaves_unmapped_fields_witness :
  widget_at (fill_document (L := scenario_library)
               (<[Py.lit "T1" := PStr (Py.lit "Jane")]> ∅) two_page_form) 1 0
    = Some (checkbox_widget "CB1" 100).
Proof.
  apply (fill_leaves_unmapped_fields (L := scenario_library)).
  - reflexivity.
  - vm_compute. reflexivity.
Defined.

(** C8: the checkbox [CB1], mapped to [True], holds "Yes". *)
Lemma fill_writes_by_field_type_witness :
  exists w',
    widget_at (fill_document (L := scenario_library) scenario_mapping two_page_form) 1 0
      = Some w'
    /\ field_value w' = PStr (Py.lit "Yes").
Proof.
  destruct (fill_writes_by_field_type (L := scenario_library)
              scenario_mapping two_page_form 1 0 (checkbox_widget "CB1" 100)
              (PBool true) eq_refl ltac:(vm_compute; reflexivity))
    as (w' & Hw' & _ & _ & Hyes & _).
  exists w'. split; [exact Hw'|]. now apply Hyes.
Defined.



(** C5 fails when the fallback raises: the copy of page 1 fails while its
    widgets are removed, then [get_pixmap] raises, and that exception
    leaves [make_page_part] although the document opens and has the page. *)
Lemma make_page_part_fallback_raises :
  fitz_open (Library := faulty_fallback_library) 0%nat = inr two_page_form
  /\ two_page_form !! Z.to_nat (1 - 1) = Some page_with_T1
  /\ copy_page (L := faulty_fallback_library) two_page_form 1
     = inl (LibraryError 1)
  /\ make_page_part (L := faulty_fallback_library) 0%nat 1
     = inl (LibraryError 2).
Proof. repeat split; vm_compute; reflexivity. Qed.

End Instances.

(** * Further properties of the code *)

(** ** [extract_json]: what is kept, what is rewritten *)

Section Recoverer.
Import Py Re.

Lemma extract_json_between (pre body post : pystr) :
  c_lbrace ∉ pre -> c_rbrace ∉ post ->
  extract_json (pre ++ (c_lbrace :: body ++ [c_rbrace]) ++ post)
  = inr (sub_commas (sub_keys (c_lbrace :: body ++ [c_rbrace]))).
Proof.
  intros Hpre Hpost.
  set (obj := c_lbrace :: body ++ [c_rbrace]).
  assert (Hstart : find c_lbrace (pre ++ obj ++ post) = Z.of_nat (length pre))
    by (unfold obj; simpl; now apply find_first).
  assert (Hend : rfind c_rbrace (pre ++ obj ++ post)
                 = Z.of_nat (length (pre ++ c_lbrace :: body))).
  { unfold obj.
    replace (pre ++ (c_lbrace :: body ++ [c_rbrace]) ++ post)
      with ((pre ++ c_lbrace :: body) ++ c_rbrace :: post)
      by (simpl; now rewrite <- !app_assoc).
    now apply rfind_last. }
  destruct (extract_json_cases (pre ++ obj ++ post)) as [(_ & _ & E)|([H|H] & _)].
  - rewrite E, Hstart, Hend.
    replace (Z.of_nat (length (pre ++ c_lbrace :: body)) + 1)
      with (Z.of_nat (length pre + length obj))
      by (unfold obj; rewrite !length_app; simpl; rewrite length_app; simpl; lia).
    now rewrite slice_middle.
  - exfalso. apply H. unfold obj. rewrite elem_of_app. right. apply list_elem_of_here.
  - exfalso. apply H. unfold obj. rewrite !elem_of_app. right. left.
    simpl. apply list_elem_of_further. rewrite elem_of_app. right.
    apply list_elem_of_here.
Qed.

(** X1. What stands before the first opening brace and after the last
    closing brace plays no part: the result is the two substitutions applied
    to the text between them, the same as for that text alone. *)
Theorem extract_json_ignores_prose (pre body post : pystr) :
  c_lbrace ∉ pre -> c_rbrace ∉ post ->
  extract_json (pre ++ (c_lbrace :: body ++ [c_rbrace]) ++ post)
  = inr (sub_commas (sub_keys (c_lbrace :: body ++ [c_rbrace])))
  /\ extract_json (pre ++ (c_lbrace :: body ++ [c_rbrace]) ++ post)
     = extract_json (c_lbrace :: body ++ [c_rbrace]).
Proof.
  intros Hpre Hpost. rewrite (extract_json_between _ _ _ Hpre Hpost).
  split; [reflexivity|].
  pose proof (extract_json_between [] body [] (not_elem_of_nil _) (not_elem_of_nil _))
    as E.
  simpl in E. rewrite app_nil_r in E. now rewrite E.
Qed.

(** *** The substitutions on a match *)

Lemma sub_commas_from_skip (m rest : pystr) :
  sub_commas_from (length m) (m ++ rest) = sub_commas_from 0 rest.
Proof. induction m as [|c m IH]; [reflexivity|exact IH]. Qed.

Lemma sub_keys_from_skip (m : pystr) (c : N) (rest : pystr) :
  forall b,
    sub_keys_from (length (m ++ [c])) b ((m ++ [c]) ++ rest)
    = sub_keys_from 0 (c =? c_newline)%N rest.
Proof.
  induction m as [|x m IH]; intros b; [reflexivity|]. simpl. apply IH.
Qed.

Lemma comma_free_no_match (a r : pystr) : c_comma ∉ a -> no_comma_match a r.
Proof.
  induction a as [|c a IH]; intros Ha; [apply no_comma_match_nil|].
  apply not_elem_of_cons in Ha as [Hc Ha].
  apply no_comma_match_cons; [|auto]. apply match_comma_other. congruence.
Qed.

(** X4. A comma followed by white space and a closing brace or bracket is
    dropped together with the white space, after a text without comma that
    is left as it is. *)
Theorem sub_commas_drops_trailing_comma (a w rest : pystr) (d : N) :
  c_comma ∉ a ->
  forallb isspace w = true ->
  d = c_rbrace \/ d = c_rbracket ->
  sub_commas (a ++ c_comma :: w ++ d :: rest) = a ++ d :: sub_commas rest.
Proof.
  intros Ha Hw Hd. unfold sub_commas.
  rewrite (sub_commas_pass _ _ (comma_free_no_match _ _ Ha)). f_equal.
  assert (Hm : match_comma (c_comma :: w ++ d :: rest)
               = Some (d, (2 + length w)%nat)).
  { apply match_comma_iff. exists w, rest. auto. }
  change (sub_commas_from 0 (c_comma :: w ++ d :: rest)) with
    (match match_comma (c_comma :: w ++ d :: rest) with
     | Some (x, n) => x :: sub_commas_from (n - 1) (w ++ d :: rest)
     | None => c_comma :: sub_commas_from 0 (w ++ d :: rest)
     end).
  rewrite Hm. f_equal.
  replace (2 + length w - 1)%nat with (length (w ++ [d]))
    by (rewrite length_app; simpl; lia).
  replace (w ++ d :: rest) with ((w ++ [d]) ++ rest) by (now rewrite <- app_assoc).
  apply sub_commas_from_skip.
Qed.

(** X3. At a line start, white space, a word, white space and a colon
    become the quoted word and the colon: the white space around the word,
    blank lines before it included, is dropped. *)
Theorem sub_keys_quotes_key_at_line_start (w1 key w2 rest : pystr) :
  forallb isspace w1 = true ->
  key <> [] -> forallb isword key = true ->
  forallb isspace w2 = true ->
  sub_keys_from 0 true (w1 ++ key ++ w2 ++ c_colon :: rest)
  = c_dquote :: key ++ c_dquote :: c_colon :: sub_keys_from 0 false rest.
Proof.
  intros Hw1 Hne Hkey Hw2.
  assert (Hm : match_key (w1 ++ key ++ w2 ++ c_colon :: rest)
               = Some (key, (length w1 + length key + length w2 + 1)%nat)).
  { apply match_key_iff. exists w1, w2, rest. auto 6. }
  assert (Hsplit : w1 ++ key ++ w2 ++ c_colon :: rest
                   = ((w1 ++ key ++ w2) ++ [c_colon]) ++ rest)
    by (now rewrite <- !app_assoc).
  destruct (w1 ++ key ++ w2) as [|x m] eqn:Hhead.
  { destruct w1; [|discriminate]. destruct key; [contradiction|discriminate]. }
  assert (Hlen : (length w1 + length key + length w2 + 1 - 1)%nat
                 = length (m ++ [c_colon])).
  { apply (f_equal length) in Hhead. rewrite !length_app in Hhead.
    rewrite length_app. simpl in *. lia. }
  rewrite Hsplit in *. simpl in Hm |- *.
  change (sub_keys_from 0 true (x :: (m ++ [c_colon]) ++ rest)) with
    (match match_key (x :: (m ++ [c_colon]) ++ rest) with
     | Some (key, n) =>
       (c_dquote :: key) ++ c_dquote :: c_colon
         :: sub_keys_from (n - 1) (x =? c_newline)%N ((m ++ [c_colon]) ++ rest)
     | None => x :: sub_keys_from 0 (x =? c_newline)%N ((m ++ [c_colon]) ++ rest)
     end).
  rewrite Hm, Hlen, sub_keys_from_skip. reflexivity.
Qed.

End Recoverer.

Section Recoverer2.
Import Py Re.

(** The text between the delimiters, as the two searches see it. *)
Lemma text_between_delimiters (text : pystr) :
  c_lbrace ∈ text -> c_rbrace ∈ text ->
  (exists pre body post,
      text = pre ++ (c_lbrace :: body ++ [c_rbrace]) ++ post
      /\ (c_lbrace ∉ pre) /\ (c_rbrace ∉ post))
  \/ (exists pre mid post,
        text = pre ++ c_rbrace :: mid ++ c_lbrace :: post
        /\ (c_lbrace ∉ pre) /\ (c_lbrace ∉ mid)
        /\ (c_rbrace ∉ mid) /\ (c_rbrace ∉ post)).
Proof.
  intros Hl Hr.
  apply list_elem_of_split_l in Hl as (pre & rest & E1 & Hpre).
  apply list_elem_of_split_r in Hr as (pre' & post' & E2 & Hpost').
  assert (E : pre ++ c_lbrace :: rest = pre' ++ c_rbrace :: post') by congruence.
  apply app_eq_inv in E as [(k & Hk1 & Hk2)|(k & Hk1 & Hk2)].
  - right. destruct k as [|x k]; [discriminate|]. injection Hk2 as <- ->.
    exists pre', k, rest. subst pre.
    apply not_elem_of_app in Hpre as [Hp1 Hp2].
    apply not_elem_of_cons in Hp2 as [_ Hp2].
    apply not_elem_of_app in Hpost' as [Hq1 Hq2].
    apply not_elem_of_cons in Hq2 as [_ Hq2].
    repeat split; try assumption; rewrite E1; now rewrite <- app_assoc.
  - left. destruct k as [|x k]; [discriminate|]. injection Hk2 as <- ->.
    exists pre, k, post'.
    repeat split; try assumption; rewrite E1; simpl; now rewrite <- app_assoc.
Qed.

Lemma extract_json_crossed (pre mid post : pystr) :
  c_lbrace ∉ pre -> c_lbrace ∉ mid -> c_rbrace ∉ mid -> c_rbrace ∉ post ->
  extract_json (pre ++ c_rbrace :: mid ++ c_lbrace :: post) = inr [].
Proof.
  intros Hpre Hmid Hmid' Hpost.
  set (text := pre ++ c_rbrace :: mid ++ c_lbrace :: post).
  assert (Hstart : find c_lbrace text
                   = Z.of_nat (length (pre ++ c_rbrace :: mid))).
  { unfold text.
    replace (pre ++ c_rbrace :: mid ++ c_lbrace :: post)
      with ((pre ++ c_rbrace :: mid) ++ c_lbrace :: post)
      by (now rewrite <- app_assoc).
    apply find_first. rewrite not_elem_of_app, not_elem_of_cons.
    repeat split; try assumption. discriminate. }
  assert (Hend : rfind c_rbrace text = Z.of_nat (length pre)).
  { unfold text. apply rfind_last.
    rewrite not_elem_of_app, not_elem_of_cons.
    repeat split; try assumption. discriminate. }
  destruct (extract_json_cases text) as [(_ & _ & E)|([H|H] & _)].
  - rewrite E, Hstart, Hend, slice_crossed; [reflexivity| | |];
      rewrite ?length_app; simpl; lia.
  - exfalso. apply H. unfold text.
    rewrite elem_of_app, !elem_of_cons, elem_of_app, elem_of_cons. tauto.
  - exfalso. apply H. unfold text. rewrite elem_of_app, !elem_of_cons. tauto.
Qed.

(** *** The last character *)

Lemma sub_commas_from_all (s : pystr) :
  forall k, (length s <= k)%nat -> sub_commas_from k s = [].
Proof.
  induction s as [|c s IH]; intros k Hk; [reflexivity|].
  destruct k as [|k]; [simpl in Hk; lia|]. simpl. apply IH. simpl in Hk. lia.
Qed.

Lemma last_cons_of (x y : N) (l : pystr) :
  last l = Some y -> last (x :: l) = Some y.
Proof. intros H. now rewrite last_cons, H. Qed.

Lemma sub_commas_last (s0 : pystr) :
  forall k, (k <= length s0)%nat ->
    last (sub_commas_from k (s0 ++ [c_rbrace])) = Some c_rbrace.
Proof.
  remember (length s0) as n eqn:Hn. revert s0 Hn.
  induction n as [n IH] using lt_wf_ind. intros s0 -> k Hk.
  destruct s0 as [|c s0].
  { assert (k = 0%nat) as -> by (simpl in Hk; lia). reflexivity. }
  destruct k as [|k].
  2: { simpl. apply (IH (length s0)); simpl in *; lia || reflexivity. }
  change ((c :: s0) ++ [c_rbrace]) with (c :: s0 ++ [c_rbrace]).
  change (sub_commas_from 0 (c :: s0 ++ [c_rbrace])) with
    (match match_comma (c :: s0 ++ [c_rbrace]) with
     | Some (x, m) => x :: sub_commas_from (m - 1) (s0 ++ [c_rbrace])
     | None => c :: sub_commas_from 0 (s0 ++ [c_rbrace])
     end).
  destruct (match_comma (c :: s0 ++ [c_rbrace])) as [[d m]|] eqn:Hm.
  - apply match_comma_iff in Hm as (w & rest & E & Hw & Hd & ->).
    injection E as -> E.
    destruct rest as [|y rest _] using rev_ind.
    + (* the match runs to the end of the text *)
      assert (s0 = w /\ d = c_rbrace) as [-> ->].
      { apply (app_inj_2 s0 w [c_rbrace] [d]) in E as [? [= ?]]; auto. }
      rewrite sub_commas_from_all; [reflexivity|].
      rewrite length_app. simpl. lia.
    + replace (w ++ d :: rest ++ [y]) with ((w ++ d :: rest) ++ [y]) in E
        by (now rewrite <- app_assoc).
      apply app_inj_2 in E as [-> [= <-]]; [|reflexivity].
      apply last_cons_of.
      apply (IH (length (w ++ d :: rest))); simpl; rewrite ?length_app; simpl; lia.
  - apply last_cons_of. apply (IH (length s0)); simpl; lia.
Qed.

Lemma sub_keys_last (s0 : pystr) :
  forall k b, (k <= length s0)%nat ->
    last (sub_keys_from k b (s0 ++ [c_rbrace])) = Some c_rbrace.
Proof.
  remember (length s0) as n eqn:Hn. revert s0 Hn.
  induction n as [n IH] using lt_wf_ind. intros s0 -> k b Hk.
  destruct s0 as [|c s0].
  { assert (k = 0%nat) as -> by (simpl in Hk; lia). now destruct b. }
  destruct k as [|k].
  2: { simpl. apply (IH (length s0)); simpl in *; lia || reflexivity. }
  change ((c :: s0) ++ [c_rbrace]) with (c :: s0 ++ [c_rbrace]).
  change (sub_keys_from 0 b (c :: s0 ++ [c_rbrace])) with
    (match (if b then match_key (c :: s0 ++ [c_rbrace]) else None) with
     | Some (key, m) =>
       (c_dquote :: key) ++ c_dquote :: c_colon
         :: sub_keys_from (m - 1) (c =? c_newline)%N (s0 ++ [c_rbrace])
     | None => c :: sub_keys_from 0 (c =? c_newline)%N (s0 ++ [c_rbrace])
     end).
  destruct (if b then match_key (c :: s0 ++ [c_rbrace]) else None)
    as [[key m]|] eqn:Hm.
  - destruct b; [|discriminate].
    apply match_key_iff in Hm as (w1 & w2 & rest & E & _ & _ & _ & _ & ->).
    assert (Hrec : last (sub_keys_from
                           (length w1 + length key + length w2 + 1 - 1)
                           (c =? c_newline)%N (s0 ++ [c_rbrace]))
                   = Some c_rbrace).
    { destruct rest as [|y rest _] using rev_ind.
      - exfalso.
        replace (w1 ++ key ++ w2 ++ [c_colon])
          with ((w1 ++ key ++ w2) ++ [c_colon]) in E
          by (now rewrite <- !app_assoc).
        change (c :: s0 ++ [c_rbrace]) with ((c :: s0) ++ [c_rbrace]) in E.
        apply app_inj_2 in E as [_ E]; [|reflexivity].
        injection E as E. vm_compute in E. discriminate E.
      - apply (f_equal length) in E. simpl in E.
        rewrite !length_app in E. simpl in E. rewrite length_app in E. simpl in E.
        apply (IH (length s0)); simpl; lia. }
    rewrite last_app_cons, last_cons_cons. now apply last_cons_of.
  - apply last_cons_of. apply (IH (length s0)); simpl; lia.
Qed.

(** X2. The text [extract_json] returns is empty, when the last closing
    brace stands before the first opening brace, or it starts with the
    opening brace and ends with the closing brace. *)
Theorem extract_json_result_delimited (text raw : pystr) :
  extract_json text = inr raw ->
  raw = [] \/ (head raw = Some c_lbrace /\ last raw = Some c_rbrace).
Proof.
  intros E.
  destruct (extract_json_cases text) as [(Hl & Hr & _)|(_ & E')];
    [|rewrite E' in E; discriminate].
  destruct (text_between_delimiters text Hl Hr)
    as [(pre & body & post & -> & Hpre & Hpost)
       |(pre & mid & post & -> & Hpre & Hmid & Hmid' & Hpost)].
  - right. rewrite (extract_json_between _ _ _ Hpre Hpost) in E.
    injection E as <-. rewrite sub_keys_brace.
    pose proof (sub_keys_last body 0 false (Nat.le_0_l _)) as Hk.
    apply last_Some in Hk as [l' Hk]. rewrite Hk.
    rewrite sub_commas_brace. split; [reflexivity|].
    apply last_cons_of. apply sub_commas_last. lia.
  - left. rewrite (extract_json_crossed _ _ _ Hpre Hmid Hmid' Hpost) in E.
    now injection E.
Qed.

(** X5. On a text without newline the first substitution changes nothing:
    a key is never quoted unless it starts a line. *)
Theorem extract_json_one_line_keeps_keys (pre body post : pystr) :
  c_lbrace ∉ pre -> c_rbrace ∉ post -> c_newline ∉ body ->
  extract_json (pre ++ (c_lbrace :: body ++ [c_rbrace]) ++ post)
  = inr (sub_commas (c_lbrace :: body ++ [c_rbrace])).
Proof.
  intros Hpre Hpost Hbody. rewrite (extract_json_between _ _ _ Hpre Hpost).
  rewrite sub_keys_brace.
  rewrite <- (app_nil_r (body ++ [c_rbrace])) at 1.
  rewrite sub_keys_pass; [now rewrite app_nil_r|].
  apply not_elem_of_app. split; [assumption|].
  apply not_elem_of_cons. split; [discriminate|apply not_elem_of_nil].
Qed.

End Recoverer2.

(** ** The field inventory *)

Section Inventory.
Context {O : Opaque} {L : Library}.

Lemma length_fields_from (pages : list Page) :
  forall n,
    length (fields_from n pages)
    = sum_list (map (fun p => length (page_widgets p)) pages).
Proof.
  induction pages as [|p ps IH]; intros n; simpl; [reflexivity|].
  now rewrite length_app, length_map, IH.
Qed.

(** X8. The inventory has one descriptor per widget of the document; a
    document without widgets gives the empty list, not an error. *)
Theorem inventory_counts_widgets (pdf_bytes : bytes) (doc : Document) :
  fitz_open pdf_bytes = inr doc ->
  exists fields,
    extract_fields_with_positions pdf_bytes = inr fields
    /\ length fields = length (all_widgets doc)
    /\ (all_widgets doc = [] -> fields = []).
Proof.
  intros Hopen. unfold extract_fields_with_positions. rewrite Hopen. simpl.
  eexists. split; [reflexivity|].
  assert (Hlen : length (fields_from 1 doc) = length (all_widgets doc)).
  { rewrite length_fields_from. unfold all_widgets. clear Hopen.
    induction doc as [|p ps IH]; simpl; [reflexivity|].
    rewrite length_app. f_equal. apply IH. }
  split; [exact Hlen|]. intros Hnone. rewrite Hnone in Hlen.
  now destruct (fields_from 1 doc).
Qed.

Lemma fields_from_lookup (pages : list Page) :
  forall n i d,
    fields_from n pages !! i = Some d ->
    exists k p w,
      pages !! k = Some p /\ w ∈ page_widgets p
      /\ d = field_of (n + Z.of_nat k) w
      /\ forall j d', (i <= j)%nat -> fields_from n pages !! j = Some d' ->
                      n + Z.of_nat k <= f_page d'.
Proof.
  induction pages as [|p ps IH]; intros n i d Hd; simpl in Hd.
  - now rewrite lookup_nil in Hd.
  - apply lookup_app_Some in Hd as [Hd|[Hge Hd]].
    + exists 0%nat, p.
      assert (Hin : d ∈ map (field_of n) (page_widgets p))
        by (apply list_elem_of_lookup; eauto).
      apply elem_of_map in Hin as (w & -> & Hw). exists w.
      repeat split; auto; [f_equal; lia|].
      intros j d' _ Hd'.
      assert (Hin' : d' ∈ fields_from n (p :: ps))
        by (apply list_elem_of_lookup; eauto).
      apply elem_of_fields_from in Hin' as (k' & p' & w' & _ & _ & ->). simpl. lia.
    + destruct (IH _ _ _ Hd) as (k & q & w & Hk & Hw & -> & Hafter).
      exists (S k), q, w. repeat split; auto; [f_equal; lia|].
      intros j d' Hj Hd'. simpl in Hd'.
      apply lookup_app_Some in Hd' as [Hd'|[Hge' Hd']].
      * apply lookup_lt_Some in Hd'. lia.
      * assert (Hle : (i - length (map (field_of n) (page_widgets p))
                       <= j - length (map (field_of n) (page_widgets p)))%nat)
          by lia.
        specialize (Hafter _ _ Hle Hd'). lia.
Qed.

(** X9. The descriptors come in the order of the pages: page numbers never
    decrease along the inventory, and each lies between 1 and the number of
    pages. *)
Theorem inventory_pages_in_order (pdf_bytes : bytes) (doc : Document) :
  fitz_open pdf_bytes = inr doc ->
  exists fields,
    extract_fields_with_positions pdf_bytes = inr fields
    /\ (forall i j d1 d2, (i <= j)%nat ->
          fields !! i = Some d1 -> fields !! j = Some d2 ->
          f_page d1 <= f_page d2)
    /\ (forall d, d ∈ fields -> 1 <= f_page d <= Z.of_nat (length doc)).
Proof.
  intros Hopen. unfold extract_fields_with_positions. rewrite Hopen. simpl.
  eexists. split; [reflexivity|]. split.
  - intros i j d1 d2 Hij H1 H2.
    destruct (fields_from_lookup _ _ _ _ H1) as (k & p & w & _ & _ & -> & Hafter).
    simpl. exact (Hafter _ _ Hij H2).
  - intros d (k & p & w & Hk & _ & ->)%elem_of_fields_from. simpl.
    apply lookup_lt_Some in Hk. lia.
Qed.

End Inventory.

(** ** Grouping the fields by page *)

Section Grouping.
Context {O : Opaque} {L : Library}.

Lemma assoc_setdefault_append (p : Z) (x : PageField) (d : list (Z * list PageField)) (q : Z) :
  assoc (setdefault_append p x d) q
  = if q =? p then Some (default [] (assoc d p) ++ [x]) else assoc d q.
Proof.
  induction d as [|[k l] r IH]; simpl.
  - rewrite (Z.eqb_sym p q). now destruct (q =? p).
  - destruct (Z.eqb_spec k p) as [->|Hkp]; simpl.
    + rewrite (Z.eqb_sym p q). now destruct (Z.eqb_spec q p).
    + rewrite IH. destruct (Z.eqb_spec k q) as [->|Hkq].
      * destruct (Z.eqb_spec q p); [contradiction|reflexivity].
      * reflexivity.
Qed.

Lemma keys_setdefault_append (p : Z) (x : PageField) (d : list (Z * list PageField)) :
  forall q, q ∈ (setdefault_append p x d).*1 <-> q = p \/ q ∈ d.*1.
Proof.
  induction d as [|[k l] r IH]; intros q; simpl.
  - rewrite list_elem_of_singleton. split; [auto|]. intros [?|H]; [auto|inversion H].
  - destruct (Z.eqb_spec k p) as [->|Hkp]; simpl.
    + rewrite elem_of_cons. tauto.
    + rewrite !elem_of_cons, IH. tauto.
Qed.

Lemma NoDup_setdefault_append (p : Z) (x : PageField) (d : list (Z * list PageField)) :
  NoDup d.*1 -> NoDup (setdefault_append p x d).*1.
Proof.
  induction d as [|[k l] r IH]; simpl; intros Hd.
  - apply NoDup_singleton.
  - apply NoDup_cons in Hd as [Hk Hr].
    destruct (Z.eqb_spec k p) as [->|Hkp]; simpl.
    + now apply NoDup_cons.
    + apply NoDup_cons. split; [|auto].
      rewrite keys_setdefault_append. intros [?|?]; [congruence|now apply Hk].
Qed.

Lemma assoc_elem (d : list (Z * list PageField)) (q : Z) (l : list PageField) :
  NoDup d.*1 -> ((q, l) ∈ d <-> assoc d q = Some l).
Proof.
  induction d as [|[k l0] r IH]; simpl; intros Hd.
  - split; [intros H; inversion H|discriminate].
  - apply NoDup_cons in Hd as [Hk Hr]. rewrite elem_of_cons, (IH Hr).
    destruct (Z.eqb_spec k q) as [->|Hkq].
    + split.
      * intros [[= <-]|Hin]; [reflexivity|]. exfalso. apply Hk.
        apply (IH Hr) in Hin. apply list_elem_of_fmap. exists (q, l). auto.
      * intros [= <-]. now left.
    + split; [intros [[= ? ?]|?]; [congruence|assumption]|auto].
Qed.

Lemma group_by_page_snoc (fields : list Field) (f : Field) :
  group_by_page (fields ++ [f])
  = setdefault_append (f_page f) (page_field_of f) (group_by_page fields).
Proof. unfold group_by_page. now rewrite fold_left_app. Qed.

Lemma fields_on_page_snoc (q : Z) (fields : list Field) (f : Field) :
  fields_on_page q (fields ++ [f])
  = fields_on_page q fields ++ (if f_page f =? q then [page_field_of f] else []).
Proof.
  unfold fields_on_page. rewrite filter_app, map_app. f_equal.
  destruct (Z.eqb_spec (f_page f) q) as [E|E].
  - now rewrite filter_cons_True.
  - now rewrite filter_cons_False.
Qed.

Lemma group_by_page_spec (fields : list Field) :
  NoDup (group_by_page fields).*1
  /\ forall q, assoc (group_by_page fields) q
               = match fields_on_page q fields with
                 | [] => None
                 | l => Some l
                 end.
Proof.
  induction fields as [|f fields [IHn IHa]] using rev_ind.
  - split; [apply NoDup_nil_2|reflexivity].
  - rewrite group_by_page_snoc. split; [now apply NoDup_setdefault_append|].
    intros q. rewrite assoc_setdefault_append, fields_on_page_snoc.
    rewrite (Z.eqb_sym (f_page f) q).
    destruct (Z.eqb_spec q (f_page f)) as [->|Hq].
    + rewrite IHa. destruct (fields_on_page (f_page f) fields); reflexivity.
    + rewrite IHa, app_nil_r. reflexivity.
Qed.

Lemma insert_sorted_perm (x : Z * list PageField) (l : list (Z * list PageField)) :
  insert_sorted x l ≡ₚ x :: l.
Proof.
  induction l as [|y l IH]; simpl; [reflexivity|].
  destruct (fst x <=? fst y); [reflexivity|].
  rewrite IH. apply Permutation_swap.
Qed.

Lemma sorted_items_perm (d : list (Z * list PageField)) : sorted_items d ≡ₚ d.
Proof.
  induction d as [|x d IH]; simpl; [reflexivity|].
  now rewrite insert_sorted_perm, IH.
Qed.

(** X10. The loop visits exactly the pages that have a field, each with
    the descriptors of its fields in the order of the inventory; a page
    without field is not visited. *)
Theorem loop_items_are_the_pages_with_fields
    (fields : list Field) (p : Z) (l : list PageField) :
  (p, l) ∈ sorted_items (group_by_page fields)
  <-> l = fields_on_page p fields /\ l <> [].
Proof.
  destruct (group_by_page_spec fields) as [Hnd Hassoc].
  rewrite sorted_items_perm, (assoc_elem _ _ _ Hnd), Hassoc.
  destruct (fields_on_page p fields) as [|x r]; split.
  - discriminate.
  - intros [-> H]. contradiction.
  - intros [= <-]. split; [reflexivity|discriminate].
  - intros [-> _]. reflexivity.
Qed.

Lemma insert_sorted_sorted (x : Z * list PageField) (l : list (Z * list PageField)) :
  StronglySorted Z.lt l.*1 -> fst x ∉ l.*1 ->
  StronglySorted Z.lt (insert_sorted x l).*1.
Proof.
  induction l as [|y l IH]; simpl; intros Hs Hx.
  - repeat constructor.
  - apply StronglySorted_inv in Hs as [Hs Hy].
    apply not_elem_of_cons in Hx as [Hxy Hx].
    destruct (Z.leb_spec (fst x) (fst y)).
    + simpl. constructor; [now constructor|].
      constructor; [lia|]. eapply Forall_impl; [exact Hy|]. simpl. lia.
    + simpl. constructor; [auto|].
      rewrite (insert_sorted_perm x l). simpl. constructor; [lia|assumption].
Qed.

(** X11. The loop visits the pages in ascending order of their numbers,
    each page once. *)
Theorem loop_items_ascending (fields : list Field) :
  StronglySorted Z.lt (sorted_items (group_by_page fields)).*1.
Proof.
  destruct (group_by_page_spec fields) as [Hnd _].
  induction (group_by_page fields) as [|x d IH]; simpl; [constructor|].
  simpl in Hnd. apply NoDup_cons in Hnd as [Hx Hd].
  apply insert_sorted_sorted; [auto|]. now rewrite sorted_items_perm.
Qed.

End Grouping.

Section LoopPages.
Context {O : Opaque} {L : Library}.

Lemma filter_page_same (p : Z) (ws : list Widget) :
  filter (fun f => f_page f = p) (map (field_of p) ws) = map (field_of p) ws.
Proof.
  induction ws as [|w ws IH]; simpl; [reflexivity|].
  rewrite filter_cons_True by reflexivity. now rewrite IH.
Qed.

Lemma filter_page_other (n p : Z) (ws : list Widget) :
  n <> p -> filter (fun f => f_page f = p) (map (field_of n) ws) = [].
Proof.
  intros Hne. induction ws as [|w ws IH]; simpl; [reflexivity|].
  now rewrite filter_cons_False by (simpl; congruence).
Qed.

Lemma filter_fields_from (pages : list Page) (p : Z) :
  forall n,
    filter (fun f => f_page f = p) (fields_from n pages)
    = if p <? n then []
      else match pages !! Z.to_nat (p - n) with
           | Some page => map (field_of p) (page_widgets page)
           | None => []
           end.
Proof.
  induction pages as [|q qs IH]; intros n; simpl.
  - rewrite filter_nil. now destruct (p <? n).
  - rewrite filter_app, IH.
    destruct (Z.ltb_spec p n) as [Hlt|Hge].
    + destruct (Z.ltb_spec p (n + 1)); [|lia].
      rewrite filter_page_other by lia. reflexivity.
    + destruct (Z.eq_dec p n) as [->|Hne].
      * destruct (Z.ltb_spec n (n + 1)); [|lia].
        rewrite filter_page_same, Z.sub_diag, app_nil_r. reflexivity.
      * destruct (Z.ltb_spec p (n + 1)); [lia|].
        rewrite filter_page_other by congruence. simpl.
        replace (Z.to_nat (p - n)) with (S (Z.to_nat (p - (n + 1)))) by lia.
        reflexivity.
Qed.

(** X23. Every item of the loop is a page of the form that has widgets:
    its number is one [doc[page_no-1]] accepts, and its descriptors are those
    of the widgets of that page, in their order.  The loop never asks the
    page isolator for a page the form does not have. *)
Theorem loop_item_is_a_page
    (pdf_bytes : bytes) (doc : Document) (fields : list Field)
    (page_no : Z) (page_fields : list PageField) :
  fitz_open pdf_bytes = inr doc ->
  extract_fields_with_positions pdf_bytes = inr fields ->
  (page_no, page_fields) ∈ sorted_items (group_by_page fields) ->
  exists page,
    doc_getitem doc (page_no - 1) = inr page
    /\ page_widgets page <> []
    /\ page_fields
       = map (fun w => page_field_of (field_of page_no w)) (page_widgets page).
Proof.
  intros Hopen. unfold extract_fields_with_positions. rewrite Hopen. simpl.
  intros [= <-] Hin.
  destruct (group_by_page_spec (fields_from 1 doc)) as [Hnd Hassoc].
  rewrite sorted_items_perm, (assoc_elem _ _ _ Hnd), Hassoc in Hin.
  unfold fields_on_page in Hin. rewrite filter_fields_from in Hin.
  destruct (Z.ltb_spec page_no 1) as [Hlt|Hge]; [discriminate|].
  destruct (doc !! Z.to_nat (page_no - 1)) as [page|] eqn:Hpage; [|discriminate].
  exists page. split; [now apply doc_getitem_valid|].
  destruct (page_widgets page) as [|w ws]; [discriminate|].
  split; [discriminate|]. injection Hin as <-. simpl. f_equal.
  now rewrite map_map.
Qed.

End LoopPages.

(** ** The page loop and the handler *)

Section Loop.
Context {O : Opaque} {L : Library}.

(** X6. What [extract_patient_info] returns is a [dict]: the text
    [extract_json] hands to the parser starts with an opening brace. *)
Theorem extract_patient_info_returns_dict
    (referral_bytes pa_bytes : bytes) (v : pyval) :
  extract_patient_info referral_bytes pa_bytes = inr v ->
  exists items, v = PDict items.
Proof.
  unfold extract_patient_info.
  destruct (generate_content _ _ _) as [e|response]; simpl; [discriminate|].
  apply recover_returns_dict.
Qed.

(** An iteration of the loop, with the two recoveries named. *)
Lemma page_step_unfold (pa_bytes : bytes) (patient_info : pyval)
    (fc : gmap Z pyval) (fm : gmap pystr pyval)
    (page_no : Z) (page_fields : list PageField) :
  page_step pa_bytes patient_info (fc, fm) (page_no, page_fields)
  = let* page_part := make_page_part pa_bytes page_no in
    let* resp_ctx := generate_content MODEL_CTX [page_part]
                       (prompt_ctx page_no page_fields) in
    let* ctx := recover resp_ctx in
    let* resp_map := generate_content MODEL_MAP [page_part]
                       (prompt_map page_no patient_info ctx) in
    let* mapping := recover resp_map in
    let* fm' := dict_update fm mapping in
    inr (<[page_no := ctx]> fc, fm').
Proof.
  unfold page_step, recover.
  destruct (make_page_part pa_bytes page_no) as [e|part]; simpl; [reflexivity|].
  destruct (generate_content MODEL_CTX [part] _) as [e|resp_ctx]; simpl; [reflexivity|].
  destruct (extract_json resp_ctx) as [e|raw]; simpl; [reflexivity|].
  destruct (Json.loads raw) as [e|ctx]; simpl; [reflexivity|].
  destruct (generate_content MODEL_MAP [part] _) as [e|resp_map]; simpl; [reflexivity|].
  destruct (extract_json resp_map) as [e|raw']; simpl; reflexivity.
Qed.

Lemma page_step_inr (pa_bytes : bytes) (patient_info : pyval)
    (fc fc' : gmap Z pyval) (fm fm' : gmap pystr pyval)
    (page_no : Z) (page_fields : list PageField) :
  page_step pa_bytes patient_info (fc, fm) (page_no, page_fields) = inr (fc', fm') ->
  exists page_part resp_ctx ctx resp_map items,
    make_page_part pa_bytes page_no = inr page_part
    /\ generate_content MODEL_CTX [page_part] (prompt_ctx page_no page_fields)
       = inr resp_ctx
    /\ recover resp_ctx = inr ctx
    /\ generate_content MODEL_MAP [page_part] (prompt_map page_no patient_info ctx)
       = inr resp_map
    /\ recover resp_map = inr (PDict items)
    /\ fc' = <[page_no := ctx]> fc
    /\ fm' = write_items items fm.
Proof.
  rewrite page_step_unfold.
  destruct (make_page_part pa_bytes page_no) as [e|part]; simpl; [discriminate|].
  destruct (generate_content MODEL_CTX [part] _) as [e|resp_ctx] eqn:Hc;
    simpl; [discriminate|].
  destruct (recover resp_ctx) as [e|ctx] eqn:Hrc; simpl; [discriminate|].
  destruct (generate_content MODEL_MAP [part] _) as [e|resp_map] eqn:Hm;
    simpl; [discriminate|].
  destruct (recover resp_map) as [e|mapping] eqn:Hrm; simpl; [discriminate|].
  destruct (recover_returns_dict _ _ Hrm) as [items ->]. simpl.
  intros [= <- <-]. exists part, resp_ctx, ctx, resp_map, items. auto 8.
Qed.

(** X7. An iteration of the loop succeeds exactly when the page isolator,
    the two calls to the service and the two recoveries succeed; the context
    is then stored under the page number and the items of the mapping are
    written into the field mapping.  The update itself never raises: what is
    recovered is a [dict]. *)
Theorem page_step_succeeds_iff (pa_bytes : bytes) (patient_info : pyval)
    (fc fc' : gmap Z pyval) (fm fm' : gmap pystr pyval)
    (page_no : Z) (page_fields : list PageField) :
  page_step pa_bytes patient_info (fc, fm) (page_no, page_fields) = inr (fc', fm')
  <-> exists page_part resp_ctx ctx resp_map items,
        make_page_part pa_bytes page_no = inr page_part
        /\ generate_content MODEL_CTX [page_part] (prompt_ctx page_no page_fields)
           = inr resp_ctx
        /\ recover resp_ctx = inr ctx
        /\ generate_content MODEL_MAP [page_part]
             (prompt_map page_no patient_info ctx) = inr resp_map
        /\ recover resp_map = inr (PDict items)
        /\ fc' = <[page_no := ctx]> fc
        /\ fm' = write_items items fm.
Proof.
  split; [apply page_step_inr|].
  intros (part & resp_ctx & ctx & resp_map & items
          & Hpart & Hc & Hrc & Hm & Hrm & -> & ->).
  rewrite page_step_unfold, Hpart. simpl. rewrite Hc. simpl. rewrite Hrc. simpl.
  rewrite Hm. simpl. rewrite Hrm. reflexivity.
Qed.

(** *** What the loop does to the field mapping *)

Lemma write_items_other (items : list (pystr * pyval)) (k : pystr) :
  forall m, k ∉ items.*1 -> write_items items m !! k = m !! k.
Proof.
  unfold write_items.
  induction items as [|[k' v'] items IH]; intros m Hk; simpl; [reflexivity|].
  simpl in Hk. apply not_elem_of_cons in Hk as [Hne Hk].
  rewrite IH by assumption. now apply lookup_insert_ne.
Qed.

Lemma write_items_key (items : list (pystr * pyval)) (k : pystr) :
  forall m, k ∈ items.*1 ->
    exists v, (k, v) ∈ items /\ write_items items m !! k = Some v.
Proof.
  unfold write_items.
  induction items as [|[k' v'] items IH]; intros m Hk; simpl in *; [inversion Hk|].
  destruct (decide (k ∈ items.*1)) as [Hin|Hnin].
  - destruct (IH (<[k' := v']> m) Hin) as (v & Hv & Hlook).
    exists v. split; [now apply list_elem_of_further|exact Hlook].
  - apply elem_of_cons in Hk as [->|Hk]; [|contradiction].
    exists v'. split; [apply list_elem_of_here|].
    pose proof (write_items_other items k' (<[k' := v']> m) Hnin) as E.
    unfold write_items in E. rewrite E. apply lookup_insert_eq.
Qed.

Lemma write_items_keeps (items : list (pystr * pyval)) (m : gmap pystr pyval)
    (k : pystr) :
  is_Some (m !! k) -> is_Some (write_items items m !! k).
Proof.
  intros Hk. destruct (decide (k ∈ items.*1)) as [Hin|Hnin].
  - destruct (write_items_key items k m Hin) as (v & _ & ->). eauto.
  - now rewrite write_items_other.
Qed.


(** X12. A loop that ends without exception has stored a context for
    exactly the pages it visited, besides those stored before, and has
    removed no key from the field mapping. *)
Theorem page_loop_keeps_keys (pa_bytes : bytes) (patient_info : pyval)
    (items : list (Z * list PageField)) :
  forall (st st' : gmap Z pyval * gmap pystr pyval),
    page_loop pa_bytes patient_info st items = inr st' ->
    (forall p, is_Some (fst st' !! p) <-> is_Some (fst st !! p) \/ p ∈ items.*1)
    /\ (forall k, is_Some (snd st !! k) -> is_Some (snd st' !! k)).
Proof.
  induction items as [|[page_no page_fields] items IH]; intros [fc fm] st' Hloop.
  - simpl in Hloop. injection Hloop as <-. split; [|auto]. intros p. split; [auto|].
    intros [?|H]; [assumption|inversion H].
  - cbn [page_loop] in Hloop.
    destruct (page_step pa_bytes patient_info (fc, fm) (page_no, page_fields))
      as [e|[fc1 fm1]] eqn:Hstep; [discriminate Hloop|].
    apply page_step_inr in Hstep
      as (part & resp_ctx & ctx & resp_map & its & _ & _ & _ & _ & _ & -> & ->).
    destruct (IH _ _ Hloop) as [IHc IHm]. simpl in *. split.
    + intros p. rewrite IHc, elem_of_cons.
      destruct (decide (p = page_no)) as [->|Hne].
      * rewrite lookup_insert_eq. split; eauto.
      * rewrite lookup_insert_ne by congruence. tauto.
    + intros k Hk. apply IHm. now apply write_items_keeps.
Qed.

Lemma page_step_call_raises (pa_bytes : bytes) (patient_info : pyval)
    (st : gmap Z pyval * gmap pystr pyval) (item : Z * list PageField) (e : exn) :
  page_call_raises pa_bytes patient_info item e ->
  page_step pa_bytes patient_info st item = inl e.
Proof.
  destruct st as [fc fm], item as [page_no page_fields].
  intros (part & Hpart & Hbad). cbn [fst snd] in Hpart, Hbad.
  rewrite page_step_unfold, Hpart. simpl.
  destruct Hbad as [Hc|(resp & ctx & Hc & Hrc & Hm)]; rewrite Hc; simpl;
    [reflexivity|].
  rewrite Hrc. simpl. now rewrite Hm.
Qed.

(** X14. When one of the two calls to the service for a page raises, the
    exception is not caught either: the run ends with it, whatever the pages
    before have given. *)
Theorem page_call_failure_aborts_run
    (pa_bytes ref_bytes : bytes) (patient_info : pyval) (fields : list Field)
    (done rest : list (Z * list PageField)) (item : Z * list PageField)
    (st1 : gmap Z pyval * gmap pystr pyval) (e : exn) :
  extract_patient_info ref_bytes pa_bytes = inr patient_info ->
  extract_fields_with_positions pa_bytes = inr fields ->
  sorted_items (group_by_page fields) = done ++ item :: rest ->
  page_loop pa_bytes patient_info (∅, ∅) done = inr st1 ->
  page_call_raises pa_bytes patient_info item e ->
  run (Some pa_bytes) (Some ref_bytes) = Uncaught e.
Proof.
  intros Hinfo Hfields Hitems Hdone Hbad.
  unfold run. rewrite Hinfo. unfold process. rewrite Hfields. simpl.
  rewrite Hitems, page_loop_app, Hdone. simpl.
  now rewrite (page_step_call_raises _ _ _ _ _ Hbad).
Qed.

(** *** The handler *)

Lemma fields_from_no_widgets (pages : list Page) :
  forall n, all_widgets pages = [] -> fields_from n pages = [].
Proof.
  unfold all_widgets.
  induction pages as [|p ps IH]; intros n Hnone; simpl in *; [reflexivity|].
  apply app_eq_nil in Hnone as [Hp Hps]. now rewrite Hp, IH.
Qed.

Lemma fill_document_no_widgets (m : gmap pystr pyval) (doc : Document) :
  all_widgets doc = [] -> fill_document m doc = doc.
Proof.
  unfold all_widgets, fill_document.
  induction doc as [|p ps IH]; intros Hnone; simpl in *; [reflexivity|].
  apply app_eq_nil in Hnone as [Hp Hps]. rewrite (IH Hps). f_equal.
  unfold fill_page. rewrite Hp. destruct p. simpl in *. now subst.
Qed.

(** X21. For a form without widgets the handler calls the service for the
    patient information only: no page is visited, and the form is offered
    for download as it was opened. *)
Theorem run_on_form_without_widgets
    (pa_bytes ref_bytes : bytes) (doc : Document) (patient_info : pyval) :
  fitz_open pa_bytes = inr doc ->
  all_widgets doc = [] ->
  extract_patient_info ref_bytes pa_bytes = inr patient_info ->
  sorted_items (group_by_page (fields_from 1 doc)) = []
  /\ run (Some pa_bytes) (Some ref_bytes)
     = Download (save_bytes doc) "filled_PA.pdf" pdf_mime.
Proof.
  intros Hopen Hnone Hinfo.
  rewrite (fields_from_no_widgets _ _ Hnone). split; [reflexivity|].
  unfold run. rewrite Hinfo. unfold process, extract_fields_with_positions.
  rewrite Hopen. simpl. rewrite (fields_from_no_widgets _ _ Hnone). simpl.
  now rewrite (fill_document_no_widgets _ _ Hnone).
Qed.

(** X22. The handler reports a failure and stops in two cases only: an
    upload is missing, or the extraction of the patient information has
    raised, because the service raised or because no object could be
    recovered from its response.  No failure of a later step is reported in
    this way. *)
Theorem run_stops_iff (pa_file ref_file : option bytes) (err : st_error) :
  run pa_file ref_file = Stopped err
  <-> ((pa_file = None \/ ref_file = None) /\ err = MissingUpload)
      \/ (exists pa_bytes ref_bytes e,
            pa_file = Some pa_bytes /\ ref_file = Some ref_bytes
            /\ err = PatientInfoFailed e
            /\ (generate_content "gemini-2.0-flash"
                  [mkPart ref_bytes pdf_mime; mkPart pa_bytes pdf_mime]
                  REFERRAL_PROMPT = inl e
                \/ (exists response,
                      generate_content "gemini-2.0-flash"
                        [mkPart ref_bytes pdf_mime; mkPart pa_bytes pdf_mime]
                        REFERRAL_PROMPT = inr response
                      /\ recover response = inl e))).
Proof.
  assert (Hinfo : forall ref_bytes pa_bytes e,
            extract_patient_info ref_bytes pa_bytes = inl e
            <-> (generate_content "gemini-2.0-flash"
                   [mkPart ref_bytes pdf_mime; mkPart pa_bytes pdf_mime]
                   REFERRAL_PROMPT = inl e
                 \/ (exists response,
                       generate_content "gemini-2.0-flash"
                         [mkPart ref_bytes pdf_mime; mkPart pa_bytes pdf_mime]
                         REFERRAL_PROMPT = inr response
                       /\ recover response = inl e))).
  { intros ref_bytes pa_bytes e. unfold extract_patient_info.
    change (let* raw := extract_json ?r in Json.loads raw) with (recover r).
    destruct (generate_content _ _ REFERRAL_PROMPT) as [e'|response]; simpl.
    - split; [intros [= ->]; now left|].
      intros [[= ->]|(response & [=] & _)]. reflexivity.
    - split; [intros E; right; now exists response|].
      intros [[=]|(r & [= <-] & E)]. exact E. }
  destruct pa_file as [pa_bytes|], ref_file as [ref_bytes|]; simpl.
  - destruct (extract_patient_info ref_bytes pa_bytes) as [e|patient_info] eqn:E.
    + split.
      * intros [= <-]. right. exists pa_bytes, ref_bytes, e.
        repeat split. now apply Hinfo.
      * intros [[[[=]|[=]] _]|(pa & rf & e' & [= <-] & [= <-] & -> & He)].
        apply Hinfo in He. congruence.
    + split.
      * destruct (process pa_bytes patient_info); discriminate.
      * intros [[[[=]|[=]] _]|(pa & rf & e' & [= <-] & [= <-] & -> & He)].
        apply Hinfo in He. congruence.
  - split; [intros [= <-]; left; auto|].
    intros [[_ ->]|(pa & rf & e' & _ & [=] & _)]. reflexivity.
  - split; [intros [= <-]; left; auto|].
    intros [[_ ->]|(pa & rf & e' & [=] & _)]. reflexivity.
  - split; [intros [= <-]; left; auto|].
    intros [[_ ->]|(pa & rf & e' & [=] & _)]. reflexivity.
Qed.

End Loop.

Section LoopResults.
Context {O : Opaque} {L : Library}.




(** X25. For an item of the loop the page isolator has its page: when
    the rasterising calls do not raise, it returns the part of that page,
    the page without its widgets or, when the copy raised, its picture. *)
Theorem loop_page_part_exists
    (pdf_bytes : bytes) (doc : Document)
    (page_no : Z) (page_fields : list PageField) :
  fitz_open pdf_bytes = inr doc ->
  (page_no, page_fields) ∈ sorted_items (group_by_page (fields_from 1 doc)) ->
  (forall step, raster_fault doc page_no step = None) ->
  exists page,
    doc !! Z.to_nat (page_no - 1) = Some page
    /\ (make_page_part pdf_bytes page_no
          = inr (mkPart (save_bytes [stripped_page page]) pdf_mime)
        \/ make_page_part pdf_bytes page_no
           = inr (mkPart (save_bytes [image_page page]) pdf_mime)).
Proof.
  intros Hopen Hin Hok.
  destruct (group_by_page_spec (fields_from 1 doc)) as [Hnd Hassoc].
  rewrite sorted_items_perm, (assoc_elem _ _ _ Hnd), Hassoc in Hin.
  unfold fields_on_page in Hin. rewrite filter_fields_from in Hin.
  destruct (Z.ltb_spec page_no 1) as [Hlt|Hge]; [discriminate|].
  destruct (doc !! Z.to_nat (page_no - 1)) as [page|] eqn:Hpage; [|discriminate].
  exists page. split; [reflexivity|].
  unfold make_page_part. rewrite Hopen. simpl.
  destruct (copy_page doc page_no) as [e|part] eqn:Hcopy; simpl.
  - right. now apply raster_page_result.
  - left. f_equal. eapply copy_page_result; eauto.
Qed.

End LoopResults.

(** ** The fill loop *)

Section Filler.
Context {O : Opaque} {L : Library}.

Lemma fill_widget_frame (m : gmap pystr pyval) (w : Widget) :
  field_name (fill_widget m w) = field_name w
  /\ field_type (fill_widget m w) = field_type w
  /\ widget_rect (fill_widget m w) = widget_rect w.
Proof.
  unfold fill_widget. destruct (m !! field_name w); [|auto].
  destruct (is_checkbox (field_type w)); auto.
Qed.

(** X15. Filling writes values only: the filled document has the same
    pages with the same rectangles and contents, and on every page the same
    widgets in the same order with their names, types and rectangles. *)
Theorem fill_keeps_skeleton (m : gmap pystr pyval) (doc : Document) :
  skeleton (fill_document m doc) = skeleton doc.
Proof.
  unfold skeleton, fill_document. rewrite map_map. apply map_ext.
  intros p. simpl. f_equal. rewrite map_map. apply map_ext.
  intros w. destruct (fill_widget_frame m w) as (-> & -> & ->). reflexivity.
Qed.

Lemma fill_widget_twice (m : gmap pystr pyval) (w : Widget) :
  fill_widget m (fill_widget m w) = fill_widget m w.
Proof.
  unfold fill_widget at 2 3. destruct (m !! field_name w) as [val|] eqn:Hm.
  - destruct (is_checkbox (field_type w)) eqn:Hcb;
      unfold fill_widget; simpl; rewrite Hm, Hcb; reflexivity.
  - unfold fill_widget. now rewrite Hm.
Qed.

(** X16. Filling a filled document again with the same map changes
    nothing. *)
Theorem fill_twice (m : gmap pystr pyval) (doc : Document) :
  fill_document m (fill_document m doc) = fill_document m doc.
Proof.
  unfold fill_document. rewrite map_map. apply map_ext. intros p.
  unfold fill_page. simpl. f_equal. rewrite map_map. apply map_ext.
  intros w. apply fill_widget_twice.
Qed.

Lemma elem_of_all_widgets (doc : Document) (w : Widget) :
  w ∈ all_widgets doc <-> exists p, p ∈ doc /\ w ∈ page_widgets p.
Proof.
  unfold all_widgets. induction doc as [|q doc IH]; simpl.
  - split; [intros H; inversion H|intros (p & H & _); inversion H].
  - rewrite elem_of_app, IH. split.
    + intros [H|(p & Hp & Hw)]; [exists q|exists p]; rewrite elem_of_cons; auto.
    + intros (p & [->|Hp]%elem_of_cons & Hw); eauto.
Qed.

Lemma map_ext_elem {A B} (f g : A -> B) (l : list A) :
  (forall x, x ∈ l -> f x = g x) -> map f l = map g l.
Proof.
  induction l as [|a l IH]; intros H; simpl; [reflexivity|].
  rewrite (H a) by apply list_elem_of_here. f_equal. apply IH.
  intros x Hx. apply H. now apply list_elem_of_further.
Qed.

(** X17. The filled document depends on the map only through the names of
    the document's widgets: two maps that agree on them give the same
    document, so an entry for a name no widget has is ignored. *)
Theorem fill_reads_widget_names_only (m1 m2 : gmap pystr pyval) (doc : Document) :
  (forall w, w ∈ all_widgets doc -> m1 !! field_name w = m2 !! field_name w) ->
  fill_document m1 doc = fill_document m2 doc.
Proof.
  intros Hagree. unfold fill_document. apply map_ext_elem. intros p Hp.
  unfold fill_page. f_equal. apply map_ext_elem. intros w Hw.
  unfold fill_widget. rewrite (Hagree w); [reflexivity|].
  apply elem_of_all_widgets. eauto.
Qed.

(** X18. A checkbox is checked by the truth value of what it is mapped to:
    any non-empty string checks it, whatever the string says; [None], the
    number 0, the empty string, the empty list and the empty [dict] uncheck
    it. *)
Theorem fill_checkbox_by_truth_value
    (m : gmap pystr pyval) (doc : Document) (i j : nat) (w : Widget) (val : pyval) :
  widget_at doc i j = Some w ->
  field_type w = PDF_WIDGET_TYPE_CHECKBOX ->
  m !! field_name w = Some val ->
  exists w',
    widget_at (fill_document m doc) i j = Some w'
    /\ field_value w' = PStr (if py_bool val then Py.lit "Yes" else Py.lit "Off")
    /\ (forall s, val = PStr s -> s <> [] -> field_value w' = PStr (Py.lit "Yes"))
    /\ (val = PNone \/ val = PInt 0 \/ val = PStr [] \/ val = PList [] \/ val = PDict []
        -> field_value w' = PStr (Py.lit "Off")).
Proof.
  intros Hw Hty Hm. rewrite widget_at_fill, Hw. simpl. eexists. split; [reflexivity|].
  unfold fill_widget, set_field_value, updated_value. rewrite Hm, Hty. simpl.
  repeat split.
  - intros s -> Hs. destruct s; [contradiction|reflexivity].
  - intros [->|[->|[->|[->| ->]]]]; reflexivity.
Qed.

(** X19. A text field, a combo box or a list box mapped to a value that
    is not a string holds the text Python prints for the value: "True" or
    "False" for a boolean, "None" for [None]. *)
Theorem fill_text_of_constants
    (m : gmap pystr pyval) (doc : Document) (i j : nat) (w : Widget) (val : pyval) :
  widget_at doc i j = Some w ->
  field_type w = PDF_WIDGET_TYPE_TEXT
  \/ field_type w = PDF_WIDGET_TYPE_COMBOBOX
  \/ field_type w = PDF_WIDGET_TYPE_LISTBOX ->
  m !! field_name w = Some val ->
  exists w',
    widget_at (fill_document m doc) i j = Some w'
    /\ (val = PBool true -> field_value w' = PStr (Py.lit "True"))
    /\ (val = PBool false -> field_value w' = PStr (Py.lit "False"))
    /\ (val = PNone -> field_value w' = PStr (Py.lit "None")).
Proof.
  intros Hw Hty Hm. rewrite widget_at_fill, Hw. simpl. eexists. split; [reflexivity|].
  unfold fill_widget, set_field_value, updated_value. rewrite Hm.
  destruct Hty as [E|[E|E]]; rewrite E; repeat split; intros ->; reflexivity.
Qed.

(** X20. Two widgets with the same field name and the same type, which is
    not radio button, hold the same value after the fill, wherever they are
    in the document, when the name is a key of the map. *)
Theorem fill_same_name_same_value
    (m : gmap pystr pyval) (doc : Document) (i j i' j' : nat) (w w' : Widget) :
  widget_at doc i j = Some w ->
  widget_at doc i' j' = Some w' ->
  field_name w = field_name w' ->
  field_type w = field_type w' ->
  field_type w <> PDF_WIDGET_TYPE_RADIOBUTTON ->
  is_Some (m !! field_name w) ->
  exists v v',
    widget_at (fill_document m doc) i j = Some v
    /\ widget_at (fill_document m doc) i' j' = Some v'
    /\ field_value v = field_value v'.
Proof.
  intros Hw Hw' Hname Hty Hradio [val Hm].
  rewrite !widget_at_fill, Hw, Hw'. simpl. eexists _, _.
  split; [reflexivity|]. split; [reflexivity|].
  unfold fill_widget. rewrite <- Hname, Hm.
  unfold set_field_value, updated_value. rewrite <- Hty.
  destruct (field_type w); simpl; congruence.
Qed.

End Filler.

(** ** The further properties on concrete inputs *)

Section FurtherInstances.
Import Examples.

(** X1: an object between two sentences is recovered as if it stood
    alone. *)
Lemma extract_json_ignores_prose_witness :
  extract_json (prose_before ++ (Py.c_lbrace :: members ++ [Py.c_rbrace]) ++ prose_after)
  = extract_json (Py.c_lbrace :: members ++ [Py.c_rbrace]).
Proof.
  apply (extract_json_ignores_prose prose_before members prose_after);
    apply (bool_decide_unpack _); vm_compute; exact I.
Defined.

(** X2: what is recovered from the object written over several lines
    starts and ends with the braces. *)
Lemma extract_json_result_delimited_witness :
  exists raw,
    extract_json near_json_lines = inr raw
    /\ (raw = [] \/ (head raw = Some Py.c_lbrace /\ last raw = Some Py.c_rbrace)).
Proof.
  eexists. split.
  - vm_compute. reflexivity.
  - apply (extract_json_result_delimited near_json_lines). vm_compute. reflexivity.
Defined.

(** X3: the indented key [foo] at a line start. *)
Lemma sub_keys_quotes_key_at_line_start_witness :
  Re.sub_keys_from 0 true
    (Py.lit "  " ++ Py.lit "foo" ++ [] ++ Py.c_colon :: Py.lit " 1}")
  = Py.c_dquote :: Py.lit "foo" ++ Py.c_dquote :: Py.c_colon
      :: Re.sub_keys_from 0 false (Py.lit " 1}").
Proof.
  apply (sub_keys_quotes_key_at_line_start
           (Py.lit "  ") (Py.lit "foo") [] (Py.lit " 1}")).
  - vm_compute. reflexivity.
  - intros E. inversion E.
  - vm_compute. reflexivity.
  - reflexivity.
Defined.

(** X4: the comma before the closing brace of [{"a": 1, }]. *)
Lemma sub_commas_drops_trailing_comma_witness :
  Re.sub_commas (Py.jlit "{'a': 1" ++ Py.c_comma :: Py.lit " " ++ Py.c_rbrace :: [])
  = Py.jlit "{'a': 1" ++ Py.c_rbrace :: Re.sub_commas [].
Proof.
  apply (sub_commas_drops_trailing_comma (Py.jlit "{'a': 1") (Py.lit " ") []).
  - apply (bool_decide_unpack _). vm_compute. exact I.
  - vm_compute. reflexivity.
  - left. reflexivity.
Defined.

(** X5: the keys of [{foo: 1, bar: 2}], written on one line, stay
    unquoted. *)
Lemma extract_json_one_line_keeps_keys_witness :
  extract_json (prose_before ++ (Py.c_lbrace :: Py.lit "foo: 1, bar: 2" ++ [Py.c_rbrace])
                  ++ prose_after)
  = inr (Re.sub_commas (Py.c_lbrace :: Py.lit "foo: 1, bar: 2" ++ [Py.c_rbrace])).
Proof.
  apply (extract_json_one_line_keeps_keys prose_before (Py.lit "foo: 1, bar: 2")
           prose_after);
    apply (bool_decide_unpack _); vm_compute; exact I.
Defined.

(** X6: the patient information of the scenario. *)
Lemma extract_patient_info_returns_dict_witness :
  exists v,
    extract_patient_info (L := scenario_library) 1%nat 0%nat = inr v
    /\ exists items, v = PDict items.
Proof.
  eexists. split.
  - vm_compute. reflexivity.
  - apply (extract_patient_info_returns_dict (L := scenario_library) 1%nat 0%nat).
    vm_compute. reflexivity.
Defined.

(** X8: the form of the scenario has two widgets and two descriptors. *)
Lemma inventory_counts_widgets_witness :
  exists fields,
    extract_fields_with_positions (L := scenario_library) 0%nat = inr fields
    /\ length fields = length (all_widgets two_page_form)
    /\ (all_widgets two_page_form = [] -> fields = []).
Proof.
  exact (inventory_counts_widgets (L := scenario_library) 0%nat two_page_form eq_refl).
Defined.

(** X9: on the form of the scenario. *)
Lemma inventory_pages_in_order_witness :
  exists fields,
    extract_fields_with_positions (L := scenario_library) 0%nat = inr fields
    /\ (forall i j d1 d2, (i <= j)%nat ->
          fields !! i = Some d1 -> fields !! j = Some d2 ->
          f_page d1 <= f_page d2)
    /\ (forall d, d ∈ fields -> 1 <= f_page d <= Z.of_nat (length two_page_form)).
Proof.
  exact (inventory_pages_in_order (L := scenario_library) 0%nat two_page_form eq_refl).
Defined.

(** X23: the first item of the loop on the form of the scenario is page 1
    with the descriptor of [T1]. *)
Lemma loop_item_is_a_page_witness :
  exists page,
    doc_getitem two_page_form (1 - 1) = inr page
    /\ page_widgets page <> []
    /\ [mkPageField (O := toy) (Py.lit "T1") (Py.lit "text") [10; 100; 200; 120]]
       = map (fun w => page_field_of (field_of 1 w)) (page_widgets page).
Proof.
  apply (loop_item_is_a_page (L := scenario_library) 0%nat two_page_form
           (fields_from 1 two_page_form) 1
           [mkPageField (O := toy) (Py.lit "T1") (Py.lit "text") [10; 100; 200; 120]]
           eq_refl eq_refl).
  vm_compute. apply list_elem_of_here.
Defined.

(** X12: the loop over page 2 of the scenario, started with an entry for
    [T1], keeps that entry and stores a context for page 2. *)
Lemma page_loop_keeps_keys_witness :
  exists st',
    page_loop (L := scenario_library) 0%nat PNone
      (∅, {[ Py.lit "T1" := PStr (Py.lit "Jane") ]}) [(2, [])] = inr st'
    /\ is_Some (fst st' !! 2)
    /\ is_Some (snd st' !! Py.lit "T1").
Proof.
  destruct (page_loop (L := scenario_library) 0%nat PNone
              (∅, {[ Py.lit "T1" := PStr (Py.lit "Jane") ]}) [(2, [])])
    as [e|st'] eqn:E; [vm_compute in E; discriminate E|].
  exists st'. split; [reflexivity|].
  destruct (page_loop_keeps_keys (L := scenario_library) _ _ _ _ _ E)
    as [Hctx Hmap].
  split.
  - apply Hctx. right. apply list_elem_of_here.
  - apply Hmap. simpl. rewrite lookup_singleton_eq. eauto.
Defined.


(** X14: the service is out of reach for the mapping of page 2; the run
    ends with that exception although page 1 has been processed. *)
Lemma page_call_failure_aborts_run_witness :
  run (L := unreachable_library) (Some 0%nat) (Some 1%nat)
    = Uncaught (LibraryError 503).
Proof.
  eapply (page_call_failure_aborts_run (L := unreachable_library)
            0%nat 1%nat _ _ [(1, _)] [] (2, _)).
  - vm_compute. reflexivity.
  - vm_compute. reflexivity.
  - vm_compute. reflexivity.
  - vm_compute. reflexivity.
  - eexists. split; [vm_compute; reflexivity|].
    right. eexists _, _. split; [vm_compute; reflexivity|].
    split; vm_compute; reflexivity.
Defined.

(** X17: the entry for [Fax], a field the form does not have, changes
    nothing. *)
Lemma fill_reads_widget_names_only_witness :
  fill_document (L := scenario_library) mapping_with_stranger two_page_form
  = fill_document (L := scenario_library) scenario_mapping two_page_form.
Proof.
  apply (fill_reads_widget_names_only (L := scenario_library)).
  intros w Hw. unfold all_widgets in Hw. simpl in Hw.
  apply elem_of_cons in Hw as [->|Hw]; [vm_compute; reflexivity|].
  apply list_elem_of_singleton in Hw as ->. vm_compute. reflexivity.
Defined.

(** X18: the checkbox [CB1], mapped to the string "No", is checked. *)
Lemma fill_checkbox_by_truth_value_witness :
  exists w',
    widget_at (fill_document (L := scenario_library)
                 (<[Py.lit "CB1" := PStr (Py.lit "No")]> ∅) two_page_form) 1 0
      = Some w'
    /\ field_value w' = PStr (Py.lit "Yes").
Proof.
  assert (Hm : (<[Py.lit "CB1" := PStr (Py.lit "No")]> ∅ : gmap pystr pyval)
               !! field_name (checkbox_widget "CB1" 100)
               = Some (PStr (Py.lit "No")))
    by (vm_compute; reflexivity).
  destruct (fill_checkbox_by_truth_value (L := scenario_library)
              _ two_page_form 1 0 _ _ eq_refl eq_refl Hm)
    as (w' & Hw' & _ & Hstr & _).
  exists w'. split; [exact Hw'|].
  apply (Hstr (Py.lit "No")); [reflexivity|]. intros E. inversion E.
Defined.

(** X19: the text field [T1], mapped to [None], holds the text "None". *)
Lemma fill_text_of_constants_witness :
  exists w',
    widget_at (fill_document (L := scenario_library)
                 (<[Py.lit "T1" := PNone]> ∅) two_page_form) 0 0
      = Some w'
    /\ field_value w' = PStr (Py.lit "None").
Proof.
  assert (Hm : (<[Py.lit "T1" := PNone]> ∅ : gmap pystr pyval)
               !! field_name (text_widget "T1" 100) = Some PNone)
    by (vm_compute; reflexivity).
  destruct (fill_text_of_constants (L := scenario_library)
              _ two_page_form 0 0 _ _ eq_refl (or_introl eq_refl) Hm)
    as (w' & Hw' & _ & _ & Hnone).
  exists w'. split; [exact Hw'|]. now apply Hnone.
Defined.

(** X20: the two widgets of [T1], on page 1 and on page 2, hold the same
    value. *)
Lemma fill_same_name_same_value_witness :
  exists v v',
    widget_at (fill_document (L := repeated_name_library) scenario_mapping
                 repeated_name_form) 0 0 = Some v
    /\ widget_at (fill_document (L := repeated_name_library) scenario_mapping
                    repeated_name_form) 1 0 = Some v'
    /\ field_value v = field_value v'.
Proof.
  apply (fill_same_name_same_value (L := repeated_name_library)
           scenario_mapping repeated_name_form 0 0 1 0
           (text_widget "T1" 100) (text_widget "T1" 300)
           eq_refl eq_refl eq_refl eq_refl).
  - discriminate.
  - vm_compute. eauto.
Defined.

(** X21: the form of one page without widgets comes back as it is. *)
Lemma run_on_form_without_widgets_witness :
  run (L := plain_library) (Some 0%nat) (Some 1%nat)
  = Download (save_bytes (Library := plain_library) form_without_widgets)
      "filled_PA.pdf" pdf_mime.
Proof.
  apply (run_on_form_without_widgets (L := plain_library)
           0%nat 1%nat form_without_widgets
           (PDict [(Py.lit "patient_info",
                    PDict [(Py.lit "First_Name", PStr (Py.lit "Jane"));
                           (Py.lit "Smoker", PBool true)])])).
  - reflexivity.
  - reflexivity.
  - vm_compute. reflexivity.
Defined.


(** X25: page 2 of the form of the scenario. *)
Lemma loop_page_part_exists_witness :
  exists page,
    two_page_form !! Z.to_nat (2 - 1) = Some page
    /\ (make_page_part (L := scenario_library) 0%nat 2
          = inr (mkPart (save_bytes (Library := scenario_library)
                           [stripped_page page]) pdf_mime)
        \/ make_page_part (L := scenario_library) 0%nat 2
           = inr (mkPart (save_bytes (Library := scenario_library)
                            [image_page (L := scenario_library) page]) pdf_mime)).
Proof.
  apply (loop_page_part_exists (L := scenario_library) 0%nat two_page_form 2
           [mkPageField (O := toy) (Py.lit "CB1") (Py.lit "checkbox") [10; 100; 30; 120]]
           eq_refl).
  - vm_compute. apply list_elem_of_further, list_elem_of_here.
  - reflexivity.
Defined.

End FurtherInstances.
